(** * The miniaudio wrapper of synthizer: logging bridge, device enumeration,
      playback devices and the data-callback trampoline.

    Source: crates/miniaudio/src/c/miniaudio_wrapper.c and miniaudio_wrapper.h.

    The wrapper is C code with three file-level statics ([logger],
    [log_callbacks], [context]), heap blocks obtained from [malloc] and
    [strdup], and calls that leave the wrapper through function pointers (log
    sinks, the enumeration visitor, the playback callback).  It is embedded as
    a state-and-error monad over a [world]: the statics, the heap (a finite map
    from addresses to blocks), the outcome of the allocations still to come,
    and the trace of calls made through client function pointers.  A step
    that C leaves undefined (dereferencing NULL or a freed block, calling a
    NULL function pointer, freeing a dead block) ends the run in [Undefined].

    miniaudio itself is not part of the wrapper; it is an interface
    ([Miniaudio]) whose operations the wrapper calls. *)

From Stdlib Require Import ZArith String List Lia.
From stdpp Require Import gmap strings list fin_maps.

Local Open Scope Z_scope.
#[local] Set Warnings "-clear-no-such-hyp".

(** ** C data *)

(** Data pointers and function pointers are addresses; [NULL] is 0. *)
Abbreviation ptr := Z (only parsing).
Abbreviation fnptr := Z (only parsing).
Definition NULL : Z := 0.

(** [ma_result], [ma_uint32] and [ma_bool32] are 32-bit integers, [uint8_t]
    an 8-bit one. *)
Abbreviation ma_result := Z (only parsing).
Definition wrap32 (z : Z) : Z := z mod 2 ^ 32.
Definition wrap8 (z : Z) : Z := z mod 2 ^ 8.

(** [ma_device_id] is a union of backend identifiers: an opaque blob. *)
Definition ma_device_id := list Byte.byte.

(** The fields of miniaudio's [ma_device_info] that the wrapper reads. *)
Record ma_device_info := {
  info_id : ma_device_id;
  info_name : string;
  info_isDefault : Z;
}.

(** [struct device_info] of the header. *)
Record device_info := {
  di_name : ptr;
  di_is_platform_default : Z;
  di_id : ptr;
}.

(** [struct device_options] of the header. *)
Record device_options := {
  opt_device_id : ptr;
  opt_channels : Z;
  opt_sr : Z;
}.

(** [struct device_config] of the header; a field of a block fresh from
    [malloc] is indeterminate ([None]) until it is written. *)
Record device_config := {
  cfg_sr : option Z;
  cfg_channels : option Z;
}.

(** What [config.dataCallback] can hold: nothing, or the wrapper's
    [data_proc]. *)
Inductive ma_device_data_proc := no_data_proc | the_data_proc.

(** The fields of [ma_device_config] that [playback_device_open] writes; the
    rest is whatever [ma_device_config_init] put there. *)
Record ma_device_config := {
  mc_deviceType : Z;
  mc_sampleRate : Z;
  mc_dataCallback : ma_device_data_proc;
  mc_pUserData : ptr;
  mc_playback_pDeviceID : ptr;
  mc_playback_format : Z;
  mc_playback_channels : Z;
  mc_rest : list Z;
}.

(** The fields of [ma_device] that the wrapper reads; the rest (among it the
    started/stopped state) belongs to miniaudio. *)
Record ma_device := {
  dev_pUserData : ptr;
  dev_sampleRate : Z;
  dev_playback_channels : Z;
  dev_internal : list Z;
}.

(** [struct wrapped_device]. *)
Record wrapped_device := {
  device : option ma_device;
  callback : option fnptr;
  rust_userdata : option ptr;
  config : device_config;
}.

Definition wrapped_uninit : wrapped_device :=
  {| device := None; callback := None; rust_userdata := None;
     config := {| cfg_sr := None; cfg_channels := None |} |}.

(** The static [log_callbacks]. *)
Record log_callbacks_t := {
  lc_error : fnptr;
  lc_warn : fnptr;
  lc_info : fnptr;
  lc_debug : fnptr;
}.

(** ** miniaudio, as the wrapper uses it *)

(** The constants and functions of miniaudio.h that the wrapper names.
    [ma_state] is everything miniaudio keeps behind [logger], [context] and
    the devices it drives.  [ma_context_get_devices] yields the playback
    array (its length is [playback_count]); the capture array is never read.
    A function that takes [&device->device] receives the device stored there
    and gives back what it left there; [ma_device_start_null] and
    [ma_device_stop_null] are what [ma_device_start] and [ma_device_stop] do
    when the pointer they are handed is NULL. *)
Class Miniaudio := {
  ma_state : Type;
  MA_SUCCESS : ma_result;
  MA_LOG_LEVEL_DEBUG : Z;
  MA_LOG_LEVEL_INFO : Z;
  MA_LOG_LEVEL_WARNING : Z;
  MA_LOG_LEVEL_ERROR : Z;
  ma_log_levels_distinct :
    NoDup [MA_LOG_LEVEL_DEBUG; MA_LOG_LEVEL_INFO; MA_LOG_LEVEL_WARNING; MA_LOG_LEVEL_ERROR];
  ma_device_type_playback : Z;
  ma_format_f32 : Z;
  ma_log_init : ma_state -> ma_result * ma_state;
  ma_log_register_callback : ma_state -> ma_result * ma_state;
  ma_context_init : ma_state -> ma_result * ma_state;
  ma_context_get_devices : ma_state -> ma_result * list ma_device_info * ma_state;
  ma_device_config_init : Z -> ma_device_config;
  ma_device_init : ma_device_config -> ma_state -> ma_result * ma_device * ma_state;
  ma_device_uninit : ma_device -> ma_state -> ma_state;
  ma_device_start : ma_device -> ma_state -> ma_result * ma_device * ma_state;
  ma_device_stop : ma_device -> ma_state -> ma_result * ma_device * ma_state;
  ma_device_start_null : ma_state -> ma_result * ma_state;
  ma_device_stop_null : ma_state -> ma_result * ma_state;
}.

(** ** The world *)

(** A heap block: the copy [strdup] makes, a [ma_device_id] from [malloc]
    (indeterminate until written), or a [struct wrapped_device]. *)
Inductive block :=
| BString (s : string)
| BDeviceId (v : option ma_device_id)
| BWrapped (wd : wrapped_device).

(** [&wrapped->config]: the address of the [config] field of the wrapper at
    [wrapped]. *)
Inductive device_config_ptr := config_of (wrapped : ptr).

(** A call that leaves the wrapper through a client function pointer, with
    its arguments. *)
Inductive event :=
| LogSink (sink : fnptr) (message : string)
| Visit (visitor : fnptr) (info : device_info) (userdata : ptr)
| Playback (cb : fnptr) (output : ptr) (output_buffer_length : Z)
           (cfg : device_config_ptr) (userdata : ptr).

(** Why a run is undefined. *)
Inductive ub :=
| NullDeref
| NullCall
| DeadAccess
| InvalidFree
| IndeterminateRead.

Record world `{Miniaudio} := {
  log_callbacks : log_callbacks_t;
  native : ma_state;
  heap : gmap Z block;
  (** outcomes of the allocations to come, first one first ([false]: the
      allocator returns NULL); once used up, allocations succeed *)
  alloc_plan : list bool;
  trace : list event;
}.

Section Wrapper.
Context `{Miniaudio}.

Definition set_log_callbacks (c : log_callbacks_t) (w : world) : world :=
  {| log_callbacks := c; native := native w; heap := heap w;
     alloc_plan := alloc_plan w; trace := trace w |}.
Definition set_native (s : ma_state) (w : world) : world :=
  {| log_callbacks := log_callbacks w; native := s; heap := heap w;
     alloc_plan := alloc_plan w; trace := trace w |}.
Definition set_heap (h : gmap Z block) (w : world) : world :=
  {| log_callbacks := log_callbacks w; native := native w; heap := h;
     alloc_plan := alloc_plan w; trace := trace w |}.
Definition set_alloc_plan (l : list bool) (w : world) : world :=
  {| log_callbacks := log_callbacks w; native := native w; heap := heap w;
     alloc_plan := l; trace := trace w |}.
Definition set_trace (t : list event) (w : world) : world :=
  {| log_callbacks := log_callbacks w; native := native w; heap := heap w;
     alloc_plan := alloc_plan w; trace := t |}.

(** ** The monad *)

Inductive outcome (A : Type) :=
| Done (a : A) (w : world)
| Undefined (u : ub).
Arguments Done {A} a w.
Arguments Undefined {A} u.

Definition M (A : Type) := world -> outcome A.

Definition ret {A} (a : A) : M A := fun w => Done a w.
Definition bind {A B} (m : M A) (k : A -> M B) : M B :=
  fun w => match m w with
           | Done a w' => k a w'
           | Undefined u => Undefined u
           end.
Definition undefined {A} (u : ub) : M A := fun _ => Undefined u.

#[local] Notation "'let*' x ':=' c 'in' k" := (bind c (fun x => k))
  (at level 10, x pattern, c at level 100, k at level 200).
#[local] Notation "c ';;;' k" := (bind c (fun _ => k))
  (at level 100, k at level 200).

(** ** Memory *)

(** The allocator hands out an address above every live one, never NULL. *)
Definition fresh_addr (h : gmap Z block) : Z :=
  1 + map_fold (fun k _ m => Z.max k m) 0 h.

Definition alloc (b : block) : M ptr := fun w =>
  match alloc_plan w with
  | false :: rest => Done NULL (set_alloc_plan rest w)
  | plan =>
      let p := fresh_addr (heap w) in
      Done p (set_alloc_plan (tail plan) (set_heap (<[p := b]> (heap w)) w))
  end.

Definition strdup (s : string) : M ptr := alloc (BString s).

(** [free(NULL)] does nothing; freeing a block that is not live is undefined. *)
Definition free (p : ptr) : M unit := fun w =>
  if decide (p = NULL) then Done tt w
  else match heap w !! p with
       | Some _ => Done tt (set_heap (delete p (heap w)) w)
       | None => Undefined InvalidFree
       end.

(** Reading or writing through [p]. *)
Definition deref (p : ptr) : M block := fun w =>
  if decide (p = NULL) then Undefined NullDeref
  else match heap w !! p with
       | Some b => Done b w
       | None => Undefined DeadAccess
       end.

Definition load_wrapped (p : ptr) : M wrapped_device :=
  let* b := deref p in
  match b with
  | BWrapped wd => ret wd
  | _ => undefined DeadAccess
  end.

Definition store_wrapped (p : ptr) (f : wrapped_device -> wrapped_device) : M unit :=
  let* wd := load_wrapped p in
  fun w => Done tt (set_heap (<[p := BWrapped (f wd)]> (heap w)) w).

Definition store_device_id (p : ptr) (v : ma_device_id) : M unit :=
  let* b := deref p in
  match b with
  | BDeviceId _ => fun w => Done tt (set_heap (<[p := BDeviceId (Some v)]> (heap w)) w)
  | _ => undefined DeadAccess
  end.

(** Reading a field that was never written. *)
Definition determinate {A} (o : option A) : M A :=
  match o with
  | Some a => ret a
  | None => undefined IndeterminateRead
  end.

(** A call through a client function pointer is recorded in the trace. *)
Definition call (f : fnptr) (e : event) : M unit := fun w =>
  if decide (f = NULL) then Undefined NullCall
  else Done tt (set_trace (trace w ++ [e]) w).

(** A call into miniaudio, as far as the wrapper's own code goes: miniaudio
    answers and changes its own state.  The trace holds the calls the
    wrapper's code makes; what miniaudio itself calls while it runs (the
    [log_callback] and the [data_proc] registered with it) is miniaudio's
    doing and is not recorded here. *)
Definition ma_call {A} (f : ma_state -> A * ma_state) : M A := fun w =>
  let '(a, s) := f (native w) in Done a (set_native s w).

Definition get_log_callbacks : M log_callbacks_t := fun w => Done (log_callbacks w) w.

(** A call into miniaudio on [&p->device].  The wrapper only forms the
    address ([device] is the first member, so for a NULL [p] the address is
    NULL) and reads nothing through [p] itself: a NULL pointer is handed to
    miniaudio as it is ([fnull]).  Otherwise miniaudio works on the native
    device behind the pointer ([f]): it reads the device stored there and
    leaves its own version of it, which is undefined when the block is no
    longer live. *)
Definition ma_device_call (p : ptr)
    (f : ma_device -> ma_state -> ma_result * ma_device * ma_state)
    (fnull : ma_state -> ma_result * ma_state) : M ma_result :=
  if decide (p = NULL) then ma_call fnull
  else
    let* wd := load_wrapped p in
    let* d := determinate (device wd) in
    let* r := ma_call (fun s => let '(r, d', s') := f d s in ((r, d'), s')) in
    store_wrapped p (fun wd =>
      {| device := Some (snd r); callback := callback wd;
         rust_userdata := rust_userdata wd; config := config wd |}) ;;;
    ret (fst r).

(** ** Logging (lines 18-68) *)

(** The macro [LVL(X, Y)]: call sink [Y] and return when the level is [X] and
    the sink is set; otherwise go on with [rest]. *)
Definition LVL (level X : Z) (Y : fnptr) (message : string) (rest : M unit) : M unit :=
  if decide (level = X /\ Y <> NULL) then call Y (LogSink Y message) else rest.

Definition log_callback (userdata : ptr) (level : Z) (message : string) : M unit :=
  let* cbs := get_log_callbacks in
  LVL level MA_LOG_LEVEL_DEBUG (lc_debug cbs) message (
  LVL level MA_LOG_LEVEL_INFO (lc_info cbs) message (
  LVL level MA_LOG_LEVEL_WARNING (lc_warn cbs) message (
  LVL level MA_LOG_LEVEL_ERROR (lc_error cbs) message (
  (* If we got here, still at least try. *)
  call (lc_error cbs) (LogSink (lc_error cbs) message))))).

Definition store_log_callbacks (f : log_callbacks_t -> log_callbacks_t) : M unit :=
  fun w => Done tt (set_log_callbacks (f (log_callbacks w)) w).

(** [ma_log_callback_init(log_callback, NULL)] only builds the value that
    [ma_log_register_callback] is given. *)
Definition init_logging (err_callback warn_callback info_callback debug_callback : fnptr)
    : M Z :=
  store_log_callbacks (fun c =>
    {| lc_error := err_callback; lc_warn := lc_warn c;
       lc_info := lc_info c; lc_debug := lc_debug c |}) ;;;
  store_log_callbacks (fun c =>
    {| lc_error := lc_error c; lc_warn := warn_callback;
       lc_info := lc_info c; lc_debug := lc_debug c |}) ;;;
  store_log_callbacks (fun c =>
    {| lc_error := lc_error c; lc_warn := lc_warn c;
       lc_info := info_callback; lc_debug := lc_debug c |}) ;;;
  store_log_callbacks (fun c =>
    {| lc_error := lc_error c; lc_warn := lc_warn c;
       lc_info := lc_info c; lc_debug := debug_callback |}) ;;;
  let* r := ma_call ma_log_init in
  if decide (r <> MA_SUCCESS) then ret 0
  else
    let* r := ma_call ma_log_register_callback in
    if decide (r <> MA_SUCCESS) then ret 0
    else ret 1.

(** [config.pLog = &logger] stays inside miniaudio's state. *)
Definition init_context : M Z :=
  let* r := ma_call ma_context_init in
  if decide (r <> MA_SUCCESS) then ret 0
  else ret 1.

(** ** Enumeration (lines 70-114) *)

(** [info] is a pointer to a [struct device_info]: [None] is NULL. *)
Definition device_info_deinit (info : option device_info) : M unit :=
  match info with
  | None => ret tt
  | Some i => free (di_name i) ;;; free (di_id i)
  end.

(** How one round of the [for] loop ends: it goes on to the next device, or
    the function returns. *)
Inductive flow := Next | Return (v : Z).

(** The body of the loop, for the device [playback[i]]. *)
Definition enumerate_body (callback : fnptr) (userdata : ptr) (d : ma_device_info)
    : M flow :=
  let* name := strdup (info_name d) in
  if decide (name = NULL) then ret (Return 1)
  else
    let* id := alloc (BDeviceId None) in
    if decide (id = NULL) then free name ;;; ret (Return 1)
    else
      store_device_id id (info_id d) ;;;
      call callback
        (Visit callback
           {| di_name := name; di_id := id;
              di_is_platform_default := wrap8 (info_isDefault d) |}
           userdata) ;;;
      ret Next.

Fixpoint enumerate_loop (callback : fnptr) (userdata : ptr)
    (playback : list ma_device_info) : M flow :=
  match playback with
  | [] => ret Next
  | d :: rest =>
      let* f := enumerate_body callback userdata d in
      match f with
      | Next => enumerate_loop callback userdata rest
      | Return v => ret (Return v)
      end
  end.

Definition enumerate_output_devices (callback : fnptr) (userdata : ptr) : M Z :=
  let* q := ma_call (fun s =>
              let '(r, playback, s') := ma_context_get_devices s in ((r, playback), s')) in
  if decide (fst q <> MA_SUCCESS) then ret 0
  else
    let* f := enumerate_loop callback userdata (snd q) in
    match f with
    | Return v => ret v
    | Next => ret 1
    end.

(** ** Playback devices (lines 116-180) *)

Definition data_proc (device_p : ptr) (output input : ptr) (frames : Z) : M unit :=
  let* head := load_wrapped device_p in
  let* d := determinate (device head) in
  let wrapped := dev_pUserData d in
  let* wd := load_wrapped wrapped in
  let* cb := determinate (callback wd) in
  let* ud := determinate (rust_userdata wd) in
  call cb (Playback cb output (wrap32 (frames * dev_playback_channels d))
             (config_of wrapped) ud).

(** The [ma_device_config] that [playback_device_open] hands to
    [ma_device_init], for the wrapper at [device_p]. *)
Definition open_config (options : device_options) (device_p : ptr) : ma_device_config :=
  let config := ma_device_config_init ma_device_type_playback in
  {| mc_deviceType := mc_deviceType config;
     mc_sampleRate := opt_sr options;
     mc_dataCallback := the_data_proc;
     mc_pUserData := device_p;
     mc_playback_pDeviceID := opt_device_id options;
     mc_playback_format := ma_format_f32;
     mc_playback_channels := opt_channels options;
     mc_rest := mc_rest config |}.

(** [ma_device_init(&context, &config, &device->device)]. *)
Definition ma_device_init_at (device_p : ptr) (mc : ma_device_config) : M ma_result :=
  let* r := ma_call (fun s => let '(r, d, s') := ma_device_init mc s in ((r, d), s')) in
  store_wrapped device_p (fun wd =>
    {| device := Some (snd r); callback := callback wd;
       rust_userdata := rust_userdata wd; config := config wd |}) ;;;
  ret (fst r).

Definition playback_device_open (options : device_options) (cb : fnptr) (userdata : ptr)
    : M ptr :=
  let* device_p := alloc (BWrapped wrapped_uninit) in
  store_wrapped device_p (fun wd =>
    {| device := device wd; callback := callback wd;
       rust_userdata := Some userdata; config := config wd |}) ;;;
  store_wrapped device_p (fun wd =>
    {| device := device wd; callback := Some cb;
       rust_userdata := rust_userdata wd; config := config wd |}) ;;;
  let* r := ma_device_init_at device_p (open_config options device_p) in
  if decide (r <> MA_SUCCESS) then
    (* fail: *)
    free device_p ;;; ret NULL
  else
    let* wd := load_wrapped device_p in
    let* d := determinate (device wd) in
    store_wrapped device_p (fun wd =>
      {| device := device wd; callback := callback wd; rust_userdata := rust_userdata wd;
         config := {| cfg_sr := cfg_sr (config wd);
                      cfg_channels := Some (dev_playback_channels d) |} |}) ;;;
    let* wd := load_wrapped device_p in
    let* d := determinate (device wd) in
    store_wrapped device_p (fun wd =>
      {| device := device wd; callback := callback wd; rust_userdata := rust_userdata wd;
         config := {| cfg_sr := Some (dev_sampleRate d);
                      cfg_channels := cfg_channels (config wd) |} |}) ;;;
    ret device_p.

Definition playback_device_destroy (device_v : ptr) : M unit :=
  if decide (device_v = NULL) then ret tt
  else
    let* wd := load_wrapped device_v in
    let* d := determinate (device wd) in
    ma_call (fun s => (tt, ma_device_uninit d s)) ;;;
    free device_v.

Definition playback_device_get_config (device_v : ptr) : M device_config_ptr :=
  ret (config_of device_v).

Definition playback_device_stop (device_p : ptr) : M Z :=
  let* r := ma_device_call device_p ma_device_stop ma_device_stop_null in
  ret (if decide (r = MA_SUCCESS) then 1 else 0).

Definition playback_device_start (device_p : ptr) : M Z :=
  let* r := ma_device_call device_p ma_device_start ma_device_start_null in
  ret (if decide (r = MA_SUCCESS) then 1 else 0).

(** What the client reads through a [const struct device_config *]. *)
Definition read_config (c : device_config_ptr) (w : world) : option device_config :=
  match c with
  | config_of p =>
      match heap w !! p with
      | Some (BWrapped wd) => Some (config wd)
      | _ => None
      end
  end.

(** ** Vocabulary of the statements *)

(** The four severities and, for each, its miniaudio level and its sink. *)
Inductive severity := Debug | Info | Warning | Error.

Definition level_of (sev : severity) : Z :=
  match sev with
  | Debug => MA_LOG_LEVEL_DEBUG
  | Info => MA_LOG_LEVEL_INFO
  | Warning => MA_LOG_LEVEL_WARNING
  | Error => MA_LOG_LEVEL_ERROR
  end.

Definition sink_of (c : log_callbacks_t) (sev : severity) : fnptr :=
  match sev with
  | Debug => lc_debug c
  | Info => lc_info c
  | Warning => lc_warn c
  | Error => lc_error c
  end.

(** The blocks a list of descriptors points to. *)
Definition blocks_of (infos : list device_info) : gset Z :=
  list_to_set (infos ≫= fun i => [di_name i; di_id i]).

(** [info] describes [d] in the heap [h]: its two pointers are not NULL and
    their blocks are live and hold copies of the name and of the identifier
    of [d]. *)
Definition descriptor_of (h : gmap Z block) (info : device_info) (d : ma_device_info) : Prop :=
  di_name info <> NULL /\ di_id info <> NULL /\
  h !! di_name info = Some (BString (info_name d)) /\
  h !! di_id info = Some (BDeviceId (Some (info_id d))) /\
  di_is_platform_default info = wrap8 (info_isDefault d).

(** From [w] to [w'] the descriptors [infos], of the devices [devs], were
    handed to the visitor and nothing else happened: the trace grew by their
    visits, their blocks are the only new ones and are live, and the old
    blocks are as they were. *)
Definition handed_over (cb : fnptr) (ud : ptr) (w w' : world)
    (infos : list device_info) (devs : list ma_device_info) : Prop :=
  trace w' = trace w ++ map (fun i => Visit cb i ud) infos /\
  Forall2 (descriptor_of (heap w')) infos devs /\
  heap w ⊆ heap w' /\
  dom (heap w') = dom (heap w) ∪ blocks_of infos /\
  native w' = native w /\
  log_callbacks w' = log_callbacks w.

(** The operations on an open device other than [playback_device_destroy]. *)
Inductive device_op := op_get_config | op_start | op_stop.

Definition run_op (p : ptr) (o : device_op) : M unit :=
  match o with
  | op_get_config => playback_device_get_config p ;;; ret tt
  | op_start => playback_device_start p ;;; ret tt
  | op_stop => playback_device_stop p ;;; ret tt
  end.

Fixpoint run_ops (p : ptr) (ops : list device_op) : M unit :=
  match ops with
  | [] => ret tt
  | o :: rest => run_op p o ;;; run_ops p rest
  end.

(** What miniaudio alone makes of a native device [d] and of its own state
    [s] over a sequence of operations: [ma_device_start] and
    [ma_device_stop] applied in turn, nothing else. *)
Fixpoint native_run (ops : list device_op) (d : ma_device) (s : ma_state)
    : ma_device * ma_state :=
  match ops with
  | [] => (d, s)
  | op_get_config :: rest => native_run rest d s
  | op_start :: rest =>
      native_run rest (snd (fst (ma_device_start d s))) (snd (ma_device_start d s))
  | op_stop :: rest =>
      native_run rest (snd (fst (ma_device_stop d s))) (snd (ma_device_stop d s))
  end.

(** Two native devices that differ at most in what miniaudio keeps for
    itself (among it the started/stopped state). *)
Definition same_device_but_state (d' d : ma_device) : Prop :=
  dev_pUserData d' = dev_pUserData d /\
  dev_sampleRate d' = dev_sampleRate d /\
  dev_playback_channels d' = dev_playback_channels d.

End Wrapper.

Arguments Done {_ A} a w.
Arguments Undefined {_ A} u.

Notation "'let*' x ':=' c 'in' k" := (bind c (fun x => k))
  (at level 10, x pattern, c at level 100, k at level 200).
Notation "c ';;;' k" := (bind c (fun _ => k))
  (at level 100, k at level 200).

(** ** A miniaudio with scripted results *)

(** Each call into this miniaudio takes its [ma_result] from the head of a
    script (0, [MA_SUCCESS], once the script is used up).  It reports the
    playback devices [devices] and opens a device with exactly the sample
    rate and channel count asked for; handed a NULL device it answers -2
    ([MA_INVALID_ARGS]).  The constants are those of miniaudio.h. *)
Definition scripted (devices : list ma_device_info) : Miniaudio := {|
  ma_state := list Z;
  MA_SUCCESS := 0;
  MA_LOG_LEVEL_DEBUG := 4;
  MA_LOG_LEVEL_INFO := 3;
  MA_LOG_LEVEL_WARNING := 2;
  MA_LOG_LEVEL_ERROR := 1;
  ma_log_levels_distinct := ltac:(compute_done);
  ma_device_type_playback := 1;
  ma_format_f32 := 5;
  ma_log_init s := (hd 0 s, tail s);
  ma_log_register_callback s := (hd 0 s, tail s);
  ma_context_init s := (hd 0 s, tail s);
  ma_context_get_devices s := (hd 0 s, devices, tail s);
  ma_device_config_init t :=
    {| mc_deviceType := t; mc_sampleRate := 0; mc_dataCallback := no_data_proc;
       mc_pUserData := NULL; mc_playback_pDeviceID := NULL; mc_playback_format := 0;
       mc_playback_channels := 0; mc_rest := [] |};
  ma_device_init mc s :=
    (hd 0 s,
     {| dev_pUserData := mc_pUserData mc; dev_sampleRate := mc_sampleRate mc;
        dev_playback_channels := mc_playback_channels mc; dev_internal := [] |},
     tail s);
  ma_device_uninit _ s := s;
  ma_device_start d s := (hd 0 s, d, tail s);
  ma_device_stop d s := (hd 0 s, d, tail s);
  ma_device_start_null s := (-2, s);
  ma_device_stop_null s := (-2, s);
|}.

(** The world before anything was called: no sink, empty heap, empty trace. *)
Definition initial_world `{Miniaudio} (s : ma_state) (plan : list bool) : world :=
  {| log_callbacks := {| lc_error := NULL; lc_warn := NULL; lc_info := NULL; lc_debug := NULL |};
     native := s; heap := ∅; alloc_plan := plan; trace := [] |}.

Definition speakers : ma_device_info :=
  {| info_id := [Byte.x01; Byte.x02]; info_name := "Speakers"; info_isDefault := 1 |}.
Definition headset : ma_device_info :=
  {| info_id := [Byte.x07]; info_name := "Headset"; info_isDefault := 0 |}.


(** Three miniaudios: with no playback device, with one, with two. *)
Definition no_devices : Miniaudio := scripted [].
Definition one_device : Miniaudio := scripted [speakers].
Definition two_devices : Miniaudio := scripted [speakers; headset].

(** A request for the default device, stereo at 48 kHz. *)
Definition stereo : device_options :=
  {| opt_device_id := NULL; opt_channels := 2; opt_sr := 48000 |}.

(** The wrapper that [playback_device_open stereo 100 7] builds at address 1
    of an empty heap, and the world it leaves. *)
Definition opened_wrapper : wrapped_device :=
  {| device := Some {| dev_pUserData := 1; dev_sampleRate := 48000;
                       dev_playback_channels := 2; dev_internal := [] |};
     callback := Some 100;
     rust_userdata := Some 7;
     config := {| cfg_sr := Some 48000; cfg_channels := Some 2 |} |}.

Definition opened_world : @world no_devices :=
  @set_heap no_devices {[ 1 := BWrapped opened_wrapper ]}
    (@initial_world no_devices [] []).

(** A world whose sinks are: error 11, info 13, none for warnings and debug. *)
Definition logging_world : @world no_devices :=
  @set_log_callbacks no_devices
    {| lc_error := 11; lc_warn := NULL; lc_info := 13; lc_debug := NULL |}
    (@initial_world no_devices [] []).

(** The addresses a list of descriptors points to, descriptor by descriptor,
    name first. *)
Definition block_list (infos : list device_info) : list Z :=
  infos ≫= fun i => [di_name i; di_id i].

(** The client releasing, one after the other, the descriptors it was
    handed. *)
Fixpoint deinit_all `{Miniaudio} (infos : list device_info) : M unit :=
  match infos with
  | [] => ret tt
  | i :: rest => device_info_deinit (Some i) ;;; deinit_all rest
  end.

(** * Properties *)

Section Properties.
Context `{Miniaudio}.

(** ** The allocator *)

Lemma fresh_addr_bound (h : gmap Z block) :
  0 <= map_fold (fun k _ m => Z.max k m) 0 h /\
  forall k, is_Some (h !! k) -> k <= map_fold (fun k _ m => Z.max k m) 0 h.
Proof.
  apply (map_fold_weak_ind
           (fun r (m : gmap Z block) => 0 <= r /\ forall k, is_Some (m !! k) -> k <= r)).
  - split; [lia|]. intros k [b Hb]. rewrite lookup_empty in Hb. discriminate.
  - intros i x m r _ [Hr Hk]. split; [lia|].
    intros k Hs. destruct (decide (i = k)) as [->|Hne]; [lia|].
    rewrite lookup_insert_ne in Hs by done. specialize (Hk k Hs). lia.
Qed.

Lemma fresh_addr_not_null (h : gmap Z block) : fresh_addr h <> NULL.
Proof. unfold fresh_addr, NULL. destruct (fresh_addr_bound h). lia. Qed.

Lemma fresh_addr_fresh (h : gmap Z block) : h !! fresh_addr h = None.
Proof.
  destruct (h !! fresh_addr h) eqn:E; [|done].
  destruct (fresh_addr_bound h) as [_ Hk].
  specialize (Hk (fresh_addr h) (ex_intro _ _ E)). unfold fresh_addr in Hk. lia.
Qed.

Lemma alloc_fails b w rest :
  alloc_plan w = false :: rest -> alloc b w = Done NULL (set_alloc_plan rest w).
Proof. unfold alloc. intros ->. reflexivity. Qed.

Lemma alloc_succeeds b w :
  head (alloc_plan w) <> Some false ->
  alloc b w = Done (fresh_addr (heap w))
                (set_alloc_plan (tail (alloc_plan w))
                   (set_heap (<[fresh_addr (heap w) := b]> (heap w)) w)).
Proof. unfold alloc. destruct (alloc_plan w) as [|[] ?]; simpl; congruence. Qed.

(** ** Logging *)

Lemma levels_ne :
  MA_LOG_LEVEL_DEBUG <> MA_LOG_LEVEL_INFO /\ MA_LOG_LEVEL_DEBUG <> MA_LOG_LEVEL_WARNING /\
  MA_LOG_LEVEL_DEBUG <> MA_LOG_LEVEL_ERROR /\ MA_LOG_LEVEL_INFO <> MA_LOG_LEVEL_WARNING /\
  MA_LOG_LEVEL_INFO <> MA_LOG_LEVEL_ERROR /\ MA_LOG_LEVEL_WARNING <> MA_LOG_LEVEL_ERROR.
Proof.
  pose proof ma_log_levels_distinct as Hd.
  rewrite !NoDup_cons, !not_elem_of_cons in Hd. tauto.
Qed.

Lemma call_non_null f e w :
  f <> NULL -> call f e w = Done tt (set_trace (trace w ++ [e]) w).
Proof. unfold call. intros Hf. destruct (decide (f = NULL)); [contradiction|reflexivity]. Qed.

(** The routing of [log_callback], level by level. *)
Lemma log_callback_route userdata sev message w :
  log_callback userdata (level_of sev) message w =
  call (if decide (sink_of (log_callbacks w) sev = NULL)
        then lc_error (log_callbacks w) else sink_of (log_callbacks w) sev)
       (LogSink (if decide (sink_of (log_callbacks w) sev = NULL)
                 then lc_error (log_callbacks w) else sink_of (log_callbacks w) sev)
                message) w.
Proof.
  destruct levels_ne as (Hdi & Hdw & Hde & Hiw & Hie & Hwe).
  unfold log_callback, get_log_callbacks, bind, LVL.
  destruct sev; simpl;
    repeat (case_decide; [solve [ exfalso; intuition congruence
                                | case_decide; [exfalso; tauto | reflexivity] ] | ]);
    case_decide; first [reflexivity | exfalso; tauto].
Qed.

(** C2: a message whose severity has a sink is handed to that sink; a
    message whose severity has no sink is handed, unchanged, to the error
    sink whenever that one is present, whatever the severity. *)
Theorem log_callback_delivers userdata sev message w :
  (sink_of (log_callbacks w) sev <> NULL ->
   log_callback userdata (level_of sev) message w =
   Done tt (set_trace (trace w ++ [LogSink (sink_of (log_callbacks w) sev) message]) w)) /\
  (sink_of (log_callbacks w) sev = NULL -> lc_error (log_callbacks w) <> NULL ->
   log_callback userdata (level_of sev) message w =
   Done tt (set_trace (trace w ++ [LogSink (lc_error (log_callbacks w)) message]) w)).
Proof.
  rewrite log_callback_route. split.
  - intros Hs. case_decide; [contradiction|]. by apply call_non_null.
  - intros Hs He. case_decide; [|contradiction]. by apply call_non_null.
Qed.

(** C9: [init_logging] writes the four sinks into [log_callbacks] first and
    runs the native initialisation from the world that already holds them;
    whatever the two native calls answer, the four sinks are installed when
    it returns, also when it returns 0, and it returns 1 exactly when both
    native calls succeed. *)
Theorem init_logging_keeps_sinks (e wn i d : Z) (w : world) :
  let sinks := {| lc_error := e; lc_warn := wn; lc_info := i; lc_debug := d |} in
  let w1 := set_log_callbacks sinks w in
  let r1 := ma_log_init (native w) in
  let r2 := ma_log_register_callback (snd r1) in
  init_logging e wn i d w =
    (let* r := ma_call ma_log_init in
     if decide (r <> MA_SUCCESS) then ret 0
     else let* r := ma_call ma_log_register_callback in
          if decide (r <> MA_SUCCESS) then ret 0 else ret 1) w1 /\
  exists r w',
    init_logging e wn i d w = Done r w' /\
    log_callbacks w' = sinks /\
    heap w' = heap w /\ trace w' = trace w /\
    (r = 0 \/ r = 1) /\
    (r = 1 <-> fst r1 = MA_SUCCESS /\ fst r2 = MA_SUCCESS) /\
    (fst r1 <> MA_SUCCESS -> r = 0 /\ w' = set_native (snd r1) w1).
Proof.
  intros sinks w1 r1 r2. split; [reflexivity|].
  unfold init_logging, store_log_callbacks, ma_call, bind, ret. simpl.
  fold sinks. fold w1. subst r2. subst r1.
  destruct (ma_log_init (native w)) as [a s1] eqn:E1. simpl.
  destruct (ma_log_register_callback s1) as [b s2] eqn:E2. simpl.
  destruct (decide (a <> MA_SUCCESS)) as [Ha|Ha]; simpl.
  - exists 0, (set_native s1 w1).
    split_and!; try reflexivity; intuition (congruence || lia).
  - apply dec_stable in Ha. rewrite E2.
    destruct (decide (b <> MA_SUCCESS)) as [Hb|Hb]; simpl.
    + exists 0, (set_native s2 w1).
      split_and!; try reflexivity; intuition (congruence || lia).
    + apply dec_stable in Hb. exists 1, (set_native s2 w1).
      split_and!; try reflexivity; intuition (congruence || lia).
Qed.

(** ** Memory steps *)

Lemma free_live p b w :
  p <> NULL -> heap w !! p = Some b ->
  free p w = Done tt (set_heap (delete p (heap w)) w).
Proof. unfold free. intros Hp Hb. case_decide; [contradiction|]. by rewrite Hb. Qed.

Lemma free_dead p w :
  p <> NULL -> heap w !! p = None -> free p w = Undefined InvalidFree.
Proof. unfold free. intros Hp Hb. case_decide; [contradiction|]. by rewrite Hb. Qed.

Lemma deref_live p b w :
  p <> NULL -> heap w !! p = Some b -> deref p w = Done b w.
Proof. unfold deref. intros Hp Hb. case_decide; [contradiction|]. by rewrite Hb. Qed.

Lemma deref_dead p w :
  p <> NULL -> heap w !! p = None -> deref p w = Undefined DeadAccess.
Proof. unfold deref. intros Hp Hb. case_decide; [contradiction|]. by rewrite Hb. Qed.

Lemma load_wrapped_live p wd w :
  p <> NULL -> heap w !! p = Some (BWrapped wd) -> load_wrapped p w = Done wd w.
Proof. intros Hp Hb. unfold load_wrapped, bind. by rewrite (deref_live p _ w Hp Hb). Qed.

Lemma store_wrapped_live p wd f w :
  p <> NULL -> heap w !! p = Some (BWrapped wd) ->
  store_wrapped p f w = Done tt (set_heap (<[p := BWrapped (f wd)]> (heap w)) w).
Proof.
  intros Hp Hb. unfold store_wrapped, bind. by rewrite (load_wrapped_live p wd w Hp Hb).
Qed.

Lemma store_device_id_live p v0 v w :
  p <> NULL -> heap w !! p = Some (BDeviceId v0) ->
  store_device_id p v w = Done tt (set_heap (<[p := BDeviceId (Some v)]> (heap w)) w).
Proof. intros Hp Hb. unfold store_device_id, bind. by rewrite (deref_live p _ w Hp Hb). Qed.

(** ** Enumeration *)

(** One round of the loop, by what the allocator answers: the name copy
    fails, the identifier block fails (the name copy is given back), or both
    succeed and the visitor is called. *)
Lemma enumerate_body_cases cb ud d w :
  cb <> NULL ->
  let name := fresh_addr (heap w) in
  let h1 := <[name := BString (info_name d)]> (heap w) in
  let id := fresh_addr h1 in
  enumerate_body cb ud d w =
  match alloc_plan w with
  | false :: rest => Done (Return 1) (set_alloc_plan rest w)
  | true :: false :: rest => Done (Return 1) (set_alloc_plan rest w)
  | plan =>
      Done Next
        (set_trace
           (trace w ++
            [Visit cb {| di_name := name; di_id := id;
                         di_is_platform_default := wrap8 (info_isDefault d) |} ud])
           (set_alloc_plan (tail (tail plan))
              (set_heap (<[id := BDeviceId (Some (info_id d))]> h1) w)))
  end.
Proof.
  intros Hcb name h1 id.
  assert (Hname : name <> NULL) by apply fresh_addr_not_null.
  assert (Hid : id <> NULL) by apply fresh_addr_not_null.
  assert (Hfresh : heap w !! name = None) by apply fresh_addr_fresh.
  unfold enumerate_body, strdup, bind.
  destruct (alloc_plan w) as [|[] plan] eqn:Eplan.
  - (* the plan is used up: both allocations succeed *)
    rewrite alloc_succeeds by (rewrite Eplan; discriminate). fold name. fold h1.
    case_decide; [contradiction|].
    rewrite alloc_succeeds by (simpl; rewrite Eplan; discriminate). simpl. fold id.
    case_decide; [contradiction|].
    erewrite store_device_id_live; [|done|by apply lookup_insert_eq]. simpl.
    rewrite insert_insert_eq. rewrite call_non_null by done. simpl.
    rewrite Eplan. reflexivity.
  - rewrite alloc_succeeds by (rewrite Eplan; discriminate). fold name. fold h1.
    case_decide; [contradiction|].
    destruct plan as [|[] plan'].
    + rewrite alloc_succeeds by (simpl; rewrite Eplan; discriminate). simpl. fold id.
      case_decide; [contradiction|].
      erewrite store_device_id_live; [|done|by apply lookup_insert_eq]. simpl.
      rewrite insert_insert_eq. rewrite call_non_null by done. simpl.
      rewrite Eplan. reflexivity.
    + rewrite alloc_succeeds by (simpl; rewrite Eplan; discriminate). simpl. fold id.
      case_decide; [contradiction|].
      erewrite store_device_id_live; [|done|by apply lookup_insert_eq]. simpl.
      rewrite insert_insert_eq. rewrite call_non_null by done. simpl.
      rewrite Eplan. reflexivity.
    + (* the identifier block fails: the name copy is freed *)
      erewrite alloc_fails by (simpl; rewrite Eplan; reflexivity).
      case_decide; [|contradiction].
      erewrite free_live; [|done|by apply lookup_insert_eq]. simpl.
      unfold ret, set_alloc_plan, set_heap. simpl. subst h1.
      rewrite delete_insert_id by done. reflexivity.
  - (* the name copy fails *)
    erewrite alloc_fails by done. case_decide; [reflexivity|contradiction].
Qed.

Lemma descriptor_of_weaken h h' info d :
  h ⊆ h' -> descriptor_of h info d -> descriptor_of h' info d.
Proof.
  intros Hsub (Hn0 & Hi0 & Hn & Hi & Hd). unfold descriptor_of.
  split_and!; [done|done|by apply (lookup_weaken h)..|done].
Qed.

Lemma handed_over_nil cb ud w w' :
  trace w' = trace w -> heap w' = heap w -> native w' = native w ->
  log_callbacks w' = log_callbacks w -> handed_over cb ud w w' [] [].
Proof.
  intros Ht Hh Hn Hl. unfold handed_over, blocks_of. simpl.
  rewrite Ht, Hh, app_nil_r. split_and!; auto. set_solver.
Qed.

Lemma handed_over_cons cb ud w w1 w' i0 d infos devs :
  handed_over cb ud w w1 [i0] [d] -> handed_over cb ud w1 w' infos devs ->
  handed_over cb ud w w' (i0 :: infos) (d :: devs).
Proof.
  intros (Ht1 & Hf1 & Hs1 & Hd1 & Hn1 & Hl1) (Ht & Hf & Hs & Hd & Hn & Hl).
  unfold handed_over. split_and!.
  - rewrite Ht, Ht1. simpl. by rewrite <- app_assoc.
  - constructor; [|done]. apply (descriptor_of_weaken (heap w1)); [done|].
    by inversion Hf1.
  - by transitivity (heap w1).
  - rewrite Hd, Hd1. unfold blocks_of. simpl. set_solver.
  - congruence.
  - congruence.
Qed.

(** A round in which both allocations succeed hands one descriptor over. *)
Lemma enumerate_body_delivers cb ud d w :
  cb <> NULL ->
  head (alloc_plan w) <> Some false ->
  head (tail (alloc_plan w)) <> Some false ->
  exists i0 w1,
    enumerate_body cb ud d w = Done Next w1 /\
    handed_over cb ud w w1 [i0] [d] /\
    alloc_plan w1 = tail (tail (alloc_plan w)).
Proof.
  intros Hcb H1 H2. pose proof (enumerate_body_cases cb ud d w Hcb) as Hb. simpl in Hb.
  set (name := fresh_addr (heap w)) in *.
  set (h1 := <[name := BString (info_name d)]> (heap w)) in *.
  set (id := fresh_addr h1) in *.
  assert (Hfn : heap w !! name = None) by apply fresh_addr_fresh.
  assert (Hfi : h1 !! id = None) by apply fresh_addr_fresh.
  assert (Hne : name <> id).
  { intros He. rewrite <- He in Hfi. subst h1. by rewrite lookup_insert_eq in Hfi. }
  exists {| di_name := name; di_id := id;
            di_is_platform_default := wrap8 (info_isDefault d) |},
    (set_trace
       (trace w ++
        [Visit cb {| di_name := name; di_id := id;
                     di_is_platform_default := wrap8 (info_isDefault d) |} ud])
       (set_alloc_plan (tail (tail (alloc_plan w)))
          (set_heap (<[id := BDeviceId (Some (info_id d))]> h1) w))).
  split; [|split].
  - rewrite Hb. destruct (alloc_plan w) as [|[] [|[] ?]]; simpl in *; done.
  - unfold handed_over, blocks_of. simpl. split_and!; try reflexivity.
    + constructor; [|constructor]. unfold descriptor_of. simpl. split_and!.
      * apply fresh_addr_not_null.
      * apply fresh_addr_not_null.
      * rewrite lookup_insert_ne by done. subst h1. by rewrite lookup_insert_eq.
      * by rewrite lookup_insert_eq.
      * reflexivity.
    + transitivity h1; by apply insert_subseteq.
    + subst h1. rewrite !dom_insert_L. set_solver.
  - simpl. by destruct (alloc_plan w) as [|[] [|[] ?]].
Qed.

(** A round in which an allocation fails returns 1 and leaves heap and trace
    as they were. *)
Lemma enumerate_body_gives_up cb ud d w :
  cb <> NULL ->
  head (alloc_plan w) = Some false \/
  (head (alloc_plan w) = Some true /\ head (tail (alloc_plan w)) = Some false) ->
  exists w1,
    enumerate_body cb ud d w = Done (Return 1) w1 /\
    handed_over cb ud w w1 [] [] /\
    alloc_plan w1 = tail (if decide (head (alloc_plan w) = Some false)
                          then alloc_plan w else tail (alloc_plan w)).
Proof.
  intros Hcb Hp. rewrite (enumerate_body_cases cb ud d w Hcb).
  destruct (alloc_plan w) as [|[] [|[] ?]] eqn:E; simpl in *;
    try (exfalso; intuition discriminate).
  all: eexists; split; [reflexivity|]; split; [by apply handed_over_nil|reflexivity].
Qed.

Lemma plan_cases (plan : list bool) :
  (head plan <> Some false /\ head (tail plan) <> Some false) \/
  (head plan = Some false \/ (head plan = Some true /\ head (tail plan) = Some false)).
Proof. destruct plan as [|[] [|[] ?]]; simpl; intuition congruence. Qed.

(** The loop always returns; what it handed over is a prefix of the devices,
    all of them when it runs to its end. *)
Lemma enumerate_loop_delivers cb ud devs :
  cb <> NULL ->
  forall w, exists f w' infos,
    enumerate_loop cb ud devs w = Done f w' /\
    (f = Next \/ f = Return 1) /\
    handed_over cb ud w w' infos (take (length infos) devs) /\
    (f = Next -> length infos = length devs).
Proof.
  intros Hcb. induction devs as [|d devs IH]; intros w.
  - exists Next, w, []. split_and!; auto. by apply handed_over_nil.
  - simpl. unfold bind. destruct (plan_cases (alloc_plan w)) as [[H1 H2]|Hfail].
    + destruct (enumerate_body_delivers cb ud d w Hcb H1 H2) as (i0 & w1 & -> & Hh & _).
      destruct (IH w1) as (f & w' & infos & -> & Hf & Hh' & Hlen).
      exists f, w', (i0 :: infos). split_and!; auto.
      * simpl. by eapply handed_over_cons.
      * intros Hn. simpl. by rewrite Hlen.
    + destruct (enumerate_body_gives_up cb ud d w Hcb Hfail) as (w1 & -> & Hh & _).
      exists (Return 1), w1, []. split_and!; auto. discriminate.
Qed.

Lemma enumerate_output_devices_unfold cb ud w :
  enumerate_output_devices cb ud w =
  let q := ma_context_get_devices (native w) in
  if decide (fst (fst q) <> MA_SUCCESS) then Done 0 (set_native (snd q) w)
  else match enumerate_loop cb ud (snd (fst q)) (set_native (snd q) w) with
       | Done (Return v) w' => Done v w'
       | Done Next w' => Done 1 w'
       | Undefined u => Undefined u
       end.
Proof.
  unfold enumerate_output_devices, ma_call, bind.
  destruct (ma_context_get_devices (native w)) as [[r playback] s']. simpl.
  case_decide; [reflexivity|].
  destruct (enumerate_loop cb ud playback (set_native s' w)) as [[|v] w'|u]; reflexivity.
Qed.

(** Whatever the visitor pointer, a round that returns returns 1. *)
Lemma enumerate_body_flow cb ud d w f w1 :
  enumerate_body cb ud d w = Done f w1 -> f = Next \/ f = Return 1.
Proof.
  unfold enumerate_body, strdup, bind, ret.
  destruct (alloc (BString (info_name d)) w) as [name w0|]; [|discriminate].
  case_decide; [intros [= <- _]; by right|].
  destruct (alloc (BDeviceId None) w0) as [id w2|]; [|discriminate].
  case_decide.
  - destruct (free name w2); [|discriminate]. intros [= <- _]; by right.
  - destruct (store_device_id id (info_id d) w2) as [? w3|]; [|discriminate].
    destruct (call cb _ w3); [|discriminate]. intros [= <- _]; by left.
Qed.

Lemma enumerate_loop_flow cb ud devs :
  forall w f w', enumerate_loop cb ud devs w = Done f w' -> f = Next \/ f = Return 1.
Proof.
  induction devs as [|d devs IH]; intros w f w'; simpl.
  - intros [= <- _]. by left.
  - unfold bind. destruct (enumerate_body cb ud d w) as [f1 w1|] eqn:E; [|discriminate].
    destruct (enumerate_body_flow _ _ _ _ _ _ E) as [->| ->]; [apply IH|].
    intros [= <- _]. by right.
Qed.

(** C3: [enumerate_output_devices] returns 0 exactly when
    [ma_context_get_devices] does not answer [MA_SUCCESS]; when the query
    succeeds it returns 1 (given a visitor to call), and with no playback
    device it returns 1 without any call of the visitor. *)
Theorem enumerate_fails_iff_query_fails cb ud (w : world) :
  let q := ma_context_get_devices (native w) in
  ((exists w', enumerate_output_devices cb ud w = Done 0 w') <->
   fst (fst q) <> MA_SUCCESS) /\
  (fst (fst q) = MA_SUCCESS -> cb <> NULL ->
   exists w', enumerate_output_devices cb ud w = Done 1 w') /\
  (fst (fst q) = MA_SUCCESS -> snd (fst q) = [] ->
   exists w', enumerate_output_devices cb ud w = Done 1 w' /\
              trace w' = trace w /\ heap w' = heap w).
Proof.
  intros q. rewrite enumerate_output_devices_unfold. fold q. simpl. split_and!.
  - split.
    + intros [w' Hw]. case_decide; [done|].
      destruct (enumerate_loop cb ud q.1.2 (set_native q.2 w)) as [f w1|] eqn:E;
        [|discriminate].
      destruct (enumerate_loop_flow _ _ _ _ _ _ E) as [->| ->]; discriminate.
    + intros Hq. case_decide; [eauto|contradiction].
  - intros Hq Hcb. case_decide; [contradiction|].
    destruct (enumerate_loop_delivers cb ud q.1.2 Hcb (set_native q.2 w))
      as (f & w' & infos & -> & [->| ->] & _); eauto.
  - intros Hq Hnil. case_decide; [contradiction|]. rewrite Hnil. simpl. eauto.
Qed.

Lemma enumerate_loop_app cb ud pre post :
  forall w,
    enumerate_loop cb ud (pre ++ post) w =
    match enumerate_loop cb ud pre w with
    | Done Next w1 => enumerate_loop cb ud post w1
    | o => o
    end.
Proof.
  induction pre as [|d pre IH]; intros w; simpl; [reflexivity|].
  unfold bind. destruct (enumerate_body cb ud d w) as [[|v] w1|u]; auto.
Qed.

Lemma handed_over_then_nothing cb ud w w1 w2 infos devs :
  handed_over cb ud w w1 infos devs -> handed_over cb ud w1 w2 [] [] ->
  handed_over cb ud w w2 infos devs.
Proof.
  intros (Ht1 & Hf1 & Hs1 & Hd1 & Hn1 & Hl1) (Ht & Hf & Hs & Hd & Hn & Hl).
  unfold handed_over. simpl in Ht. rewrite app_nil_r in Ht. split_and!.
  - congruence.
  - eapply Forall2_impl; [exact Hf1|]. intros i d. by apply descriptor_of_weaken.
  - by transitivity (heap w1).
  - rewrite Hd, Hd1. unfold blocks_of. simpl. set_solver.
  - congruence.
  - congruence.
Qed.

(** While the allocator answers, every device is handed over. *)
Lemma enumerate_loop_all_succeed cb ud devs :
  cb <> NULL ->
  forall w rest,
    alloc_plan w = repeat true (2 * length devs) ++ rest ->
    exists w' infos,
      enumerate_loop cb ud devs w = Done Next w' /\
      handed_over cb ud w w' infos devs /\
      alloc_plan w' = rest.
Proof.
  intros Hcb. induction devs as [|d devs IH]; intros w rest Hplan.
  - exists w, []. split_and!; auto. by apply handed_over_nil.
  - replace (2 * length (d :: devs))%nat with (S (S (2 * length devs))) in Hplan
      by (simpl; lia).
    simpl in Hplan.
    destruct (enumerate_body_delivers cb ud d w Hcb) as (i0 & w1 & Hb & Hh & Hp1).
    { rewrite Hplan. discriminate. }
    { rewrite Hplan. discriminate. }
    rewrite Hplan in Hp1. simpl in Hp1.
    destruct (IH w1 rest Hp1) as (w' & infos & Hl & Hh' & Hp').
    exists w', (i0 :: infos). split_and!; [|by eapply handed_over_cons|done].
    simpl. unfold bind. by rewrite Hb.
Qed.


(** C4: when the query reports [pre ++ d :: post] and the allocator answers
    for every device of [pre] but fails on the name copy of [d], or on its
    identifier block, [enumerate_output_devices] returns 1; the visitor was
    called for the devices of [pre], in order, and for no other; their
    blocks are the only new ones in the heap, so nothing allocated for [d]
    is left. *)
Theorem enumerate_stops_at_failed_allocation cb ud (w : world) pre d post rest :
  cb <> NULL ->
  fst (fst (ma_context_get_devices (native w))) = MA_SUCCESS ->
  snd (fst (ma_context_get_devices (native w))) = pre ++ d :: post ->
  alloc_plan w = repeat true (2 * length pre) ++ false :: rest \/
  alloc_plan w = repeat true (2 * length pre + 1) ++ false :: rest ->
  exists w' infos,
    enumerate_output_devices cb ud w = Done 1 w' /\
    length infos = length pre /\
    trace w' = trace w ++ map (fun i => Visit cb i ud) infos /\
    Forall2 (descriptor_of (heap w')) infos pre /\
    heap w ⊆ heap w' /\
    dom (heap w') = dom (heap w) ∪ blocks_of infos /\
    alloc_plan w' = rest.
Proof.
  intros Hcb Hq Hdevs Hplan. rewrite enumerate_output_devices_unfold. simpl.
  case_decide; [contradiction|]. rewrite Hdevs.
  set (w0 := set_native (snd (ma_context_get_devices (native w))) w).
  assert (Hplan0 : exists tl, alloc_plan w0 = repeat true (2 * length pre) ++ tl /\
                              (tl = false :: rest \/ tl = true :: false :: rest)).
  { destruct Hplan as [Hp|Hp].
    - exists (false :: rest). split; [exact Hp|by left].
    - exists (true :: false :: rest). split; [|by right].
      simpl. rewrite Hp, repeat_app, <- app_assoc. reflexivity. }
  destruct Hplan0 as (tl & Hp0 & Htl).
  destruct (enumerate_loop_all_succeed cb ud pre Hcb w0 tl Hp0)
    as (w1 & infos & Hloop & Hh & Hp1).
  rewrite enumerate_loop_app, Hloop. simpl. unfold bind.
  destruct (enumerate_body_gives_up cb ud d w1 Hcb) as (w2 & -> & Hh2 & Hp2).
  { rewrite Hp1. destruct Htl as [->| ->]; simpl; auto. }
  pose proof (handed_over_then_nothing _ _ _ _ _ _ _ Hh Hh2)
    as (Ht & Hf & Hs & Hd & _ & _).
  exists w2, infos. split_and!; try done.
  - by apply Forall2_length in Hf.
  - rewrite Hp2, Hp1. destruct Htl as [->| ->]; reflexivity.
Qed.

(** C1, as the code has it: [enumerate_output_devices] gives back none of the
    blocks of a descriptor it handed to the visitor.  Given a visitor to
    call, it returns, and when it has returned the name copy and the
    identifier block of every descriptor the visitor was called with are
    still live and hold the copies; they are the only blocks the call added,
    and each descriptor is released by [device_info_deinit], which frees
    exactly its two blocks. *)
Theorem enumerate_hands_descriptors_over cb ud (w : world) :
  cb <> NULL ->
  exists r w' infos,
    enumerate_output_devices cb ud w = Done r w' /\
    trace w' = trace w ++ map (fun i => Visit cb i ud) infos /\
    Forall2 (descriptor_of (heap w')) infos
      (take (length infos) (snd (fst (ma_context_get_devices (native w))))) /\
    heap w ⊆ heap w' /\
    dom (heap w') = dom (heap w) ∪ blocks_of infos /\
    (forall i, i ∈ infos ->
       device_info_deinit (Some i) w' =
       Done tt (set_heap (delete (di_id i) (delete (di_name i) (heap w'))) w')).
Proof.
  intros Hcb. rewrite enumerate_output_devices_unfold. simpl.
  set (q := ma_context_get_devices (native w)).
  set (w0 := set_native (snd q) w).
  assert (Hdeinit : forall (w' : world) infos devs,
            Forall2 (descriptor_of (heap w')) infos devs ->
            forall i, i ∈ infos ->
              device_info_deinit (Some i) w' =
              Done tt (set_heap (delete (di_id i) (delete (di_name i) (heap w'))) w')).
  { intros w' infos devs Hf i Hi.
    apply list_elem_of_lookup_1 in Hi as [k Hk].
    destruct (Forall2_lookup_l _ _ _ k i Hf Hk) as (dd & _ & (Hn0 & Hi0 & Hn & Hid & _)).
    unfold device_info_deinit, bind.
    rewrite (free_live _ _ _ Hn0 Hn). simpl.
    erewrite free_live; [reflexivity|done|]. simpl.
    rewrite lookup_delete_ne; [exact Hid|]. intros He. rewrite He in Hn. congruence. }
  case_decide.
  - exists 0, w0, []. split_and!; try done.
    + simpl. by rewrite app_nil_r.
    + unfold blocks_of. simpl. set_solver.
    + intros i Hi. by apply not_elem_of_nil in Hi.
  - destruct (enumerate_loop_delivers cb ud (snd (fst q)) Hcb w0)
      as (f & w' & infos & -> & Hflow & (Ht & Hf & Hs & Hd & _ & _) & _).
    exists 1, w', infos. split_and!; try done.
    + destruct Hflow as [->| ->]; reflexivity.
    + by eapply Hdeinit.
Qed.

(** ** Playback devices *)

(** [playback_device_open], by what the allocator and [ma_device_init]
    answer. *)
Lemma playback_device_open_cases options cb ud (w : world) :
  let p := fresh_addr (heap w) in
  let r := ma_device_init (open_config options p) (native w) in
  playback_device_open options cb ud w =
  match alloc_plan w with
  | false :: _ => Undefined NullDeref
  | plan =>
      if decide (fst (fst r) <> MA_SUCCESS)
      then Done NULL (set_alloc_plan (tail plan) (set_native (snd r) w))
      else Done p
             (set_alloc_plan (tail plan)
                (set_native (snd r)
                   (set_heap
                      (<[p := BWrapped
                                {| device := Some (snd (fst r));
                                   callback := Some cb;
                                   rust_userdata := Some ud;
                                   config :=
                                     {| cfg_sr := Some (dev_sampleRate (snd (fst r)));
                                        cfg_channels :=
                                          Some (dev_playback_channels (snd (fst r))) |} |}]>
                         (heap w)) w)))
  end.
Proof.
  intros p r. unfold playback_device_open, bind.
  assert (Hp : p <> NULL) by apply fresh_addr_not_null.
  assert (Hfresh : heap w !! p = None) by apply fresh_addr_fresh.
  destruct (alloc_plan w) as [|[] plan] eqn:Eplan.
  3: { erewrite alloc_fails by done. reflexivity. }
  all: rewrite alloc_succeeds by (rewrite Eplan; discriminate); fold p;
    (erewrite store_wrapped_live; [|done|by apply lookup_insert_eq]); simpl;
    (erewrite store_wrapped_live; [|done|by apply lookup_insert_eq]); simpl;
    unfold ma_device_init_at, ma_call, bind; simpl; fold r;
    destruct r as [[a d] s'] eqn:Er; simpl;
    (erewrite store_wrapped_live; [|done|by apply lookup_insert_eq]); simpl;
    rewrite !insert_insert_eq;
    (destruct (decide (a <> MA_SUCCESS)) as [Ha|Ha]; simpl;
     [ erewrite free_live; [|done|by apply lookup_insert_eq]; simpl;
       unfold ret, set_heap, set_native, set_alloc_plan; simpl;
       rewrite delete_insert_id by done; rewrite Eplan; reflexivity
     | ]);
    (erewrite load_wrapped_live; [|done|by apply lookup_insert_eq]); simpl;
    (erewrite store_wrapped_live; [|done|by apply lookup_insert_eq]); simpl;
    (erewrite load_wrapped_live; [|done|by apply lookup_insert_eq]); simpl;
    (erewrite store_wrapped_live; [|done|by apply lookup_insert_eq]); simpl;
    rewrite !insert_insert_eq; rewrite Eplan; reflexivity.
Qed.

(** C6: when the wrapper block was obtained and [ma_device_init] does not
    answer [MA_SUCCESS], [playback_device_open] returns NULL and has freed
    the wrapper: heap, sinks and trace are as before the call, and the world
    it leaves is the same whatever callback and user data it was given. *)
Theorem playback_device_open_native_failure options cb ud (w : world) :
  head (alloc_plan w) <> Some false ->
  fst (fst (ma_device_init (open_config options (fresh_addr (heap w))) (native w)))
    <> MA_SUCCESS ->
  exists w',
    playback_device_open options cb ud w = Done NULL w' /\
    heap w' = heap w /\
    log_callbacks w' = log_callbacks w /\
    trace w' = trace w /\
    forall cb' ud',
      playback_device_open options cb' ud' w = Done NULL w'.
Proof.
  intros Hplan Hinit.
  set (r := ma_device_init (open_config options (fresh_addr (heap w))) (native w)) in *.
  exists (set_alloc_plan (tail (alloc_plan w)) (set_native (snd r) w)).
  assert (Hall : forall cb' ud',
            playback_device_open options cb' ud' w =
            Done NULL (set_alloc_plan (tail (alloc_plan w)) (set_native (snd r) w))).
  { intros cb' ud'. rewrite playback_device_open_cases. fold r.
    destruct (alloc_plan w) as [|[] ?]; simpl in *; try done;
      (case_decide; [reflexivity|contradiction]). }
  split_and!; auto.
Qed.

(** C10: [playback_device_open] writes through the pointer [malloc] gave it
    without looking at it: when the allocation fails, the first field write
    goes through NULL, whatever miniaudio would have answered.  Only the
    failure of [ma_device_init] is handled: there the call returns NULL. *)
Theorem playback_device_open_alloc_failure options cb ud (w : world) :
  (forall rest, alloc_plan w = false :: rest ->
     playback_device_open options cb ud w = Undefined NullDeref) /\
  (head (alloc_plan w) <> Some false ->
   fst (fst (ma_device_init (open_config options (fresh_addr (heap w))) (native w)))
     <> MA_SUCCESS ->
   exists w', playback_device_open options cb ud w = Done NULL w').
Proof.
  rewrite playback_device_open_cases. split.
  - intros rest Hplan. by rewrite Hplan.
  - intros Hplan Hinit.
    destruct (alloc_plan w) as [|[] ?]; simpl in *; try done;
      (case_decide; [eauto|contradiction]).
Qed.

Lemma ma_device_call_live p wd d f fnull (w : world) :
  p <> NULL -> heap w !! p = Some (BWrapped wd) -> device wd = Some d ->
  ma_device_call p f fnull w =
  Done (fst (fst (f d (native w))))
    (set_heap
       (<[p := BWrapped {| device := Some (snd (fst (f d (native w))));
                           callback := callback wd;
                           rust_userdata := rust_userdata wd;
                           config := config wd |}]> (heap w))
       (set_native (snd (f d (native w))) w)).
Proof.
  intros Hp Hb Hd. unfold ma_device_call. case_decide; [contradiction|]. unfold bind.
  rewrite (load_wrapped_live p wd w Hp Hb). rewrite Hd. simpl.
  unfold ma_call. destruct (f d (native w)) as [[r d'] s']. simpl.
  erewrite store_wrapped_live; [|done|exact Hb]. reflexivity.
Qed.

(** C5, as the code has it: [playback_device_destroy] does nothing on NULL;
    on a live device it uninitialises the native device and frees the
    wrapper; on a handle whose wrapper is no longer live (a device that was
    already destroyed) it reads freed memory, so destroying the same device
    twice is undefined. *)
Theorem playback_device_destroy_cases (w : world) :
  playback_device_destroy NULL w = Done tt w /\
  (forall p wd d,
     p <> NULL -> heap w !! p = Some (BWrapped wd) -> device wd = Some d ->
     playback_device_destroy p w =
     Done tt (set_heap (delete p (heap w)) (set_native (ma_device_uninit d (native w)) w)) /\
     (playback_device_destroy p ;;; playback_device_destroy p) w = Undefined DeadAccess) /\
  (forall p,
     p <> NULL -> heap w !! p = None ->
     playback_device_destroy p w = Undefined DeadAccess).
Proof.
  assert (Hdead : forall (w0 : world) p, p <> NULL -> heap w0 !! p = None ->
            playback_device_destroy p w0 = Undefined DeadAccess).
  { intros w0 p Hp Hn. unfold playback_device_destroy, bind, load_wrapped, bind.
    case_decide; [contradiction|]. by rewrite (deref_dead p w0 Hp Hn). }
  split_and!.
  - reflexivity.
  - intros p wd d Hp Hb Hd.
    assert (Hfirst : playback_device_destroy p w =
              Done tt (set_heap (delete p (heap w))
                         (set_native (ma_device_uninit d (native w)) w))).
    { unfold playback_device_destroy, bind. case_decide; [contradiction|].
      rewrite (load_wrapped_live p wd w Hp Hb). rewrite Hd. simpl.
      erewrite free_live; [reflexivity|done|exact Hb]. }
    split; [exact Hfirst|].
    unfold bind at 1. rewrite Hfirst. apply Hdead; [done|]. simpl.
    apply lookup_delete_eq.
  - intros p. apply Hdead.
Qed.

(** [wrap32] changes nothing on a value that fits 32 bits. *)
Lemma wrap32_small z : 0 <= z < 2 ^ 32 -> wrap32 z = z.
Proof. intros Hz. unfold wrap32. by apply Z.mod_small. Qed.

(** What [data_proc] computes: it finds the wrapper through the user-data
    pointer of the native device and calls the callback stored in it once,
    with the output pointer it was given, the address of the wrapper's
    config, the stored user data, and the product of frame count and channel
    count taken in 32-bit unsigned arithmetic (the product itself when it
    fits 32 bits); nothing else in the world changes. *)
Theorem data_proc_forwards (w : world) device_p hd d wd cb ud output input frames :
  device_p <> NULL -> heap w !! device_p = Some (BWrapped hd) -> device hd = Some d ->
  dev_pUserData d <> NULL -> heap w !! dev_pUserData d = Some (BWrapped wd) ->
  callback wd = Some cb -> cb <> NULL -> rust_userdata wd = Some ud ->
  data_proc device_p output input frames w =
    Done tt (set_trace
               (trace w ++
                [Playback cb output ((frames * dev_playback_channels d) mod 2 ^ 32)
                   (config_of (dev_pUserData d)) ud]) w) /\
  read_config (config_of (dev_pUserData d)) w = Some (config wd) /\
  (0 <= frames * dev_playback_channels d < 2 ^ 32 ->
   (frames * dev_playback_channels d) mod 2 ^ 32 = frames * dev_playback_channels d).
Proof.
  intros Hp Hb Hd Hu Hw Hcb Hcbn Hud. split_and!.
  - unfold data_proc, bind.
    rewrite (load_wrapped_live device_p hd w Hp Hb). rewrite Hd. simpl.
    rewrite (load_wrapped_live _ wd w Hu Hw). rewrite Hcb, Hud. simpl.
    by rewrite call_non_null.
  - simpl. by rewrite Hw.
  - apply wrap32_small.
Qed.

Lemma native_run_same_device ops :
  (forall d0 s0, same_device_but_state (snd (fst (ma_device_start d0 s0))) d0) ->
  (forall d0 s0, same_device_but_state (snd (fst (ma_device_stop d0 s0))) d0) ->
  forall d s, same_device_but_state (fst (native_run ops d s)) d.
Proof.
  intros Hstart Hstop. induction ops as [|o ops IH]; intros d s.
  - by unfold same_device_but_state.
  - destruct o; simpl; [apply IH| |].
    + destruct (IH (snd (fst (ma_device_start d s))) (snd (ma_device_start d s)))
        as (Hu & Hr & Hc).
      destruct (Hstart d s) as (Hu' & Hr' & Hc').
      unfold same_device_but_state. split_and!; congruence.
    + destruct (IH (snd (fst (ma_device_stop d s))) (snd (ma_device_stop d s)))
        as (Hu & Hr & Hc).
      destruct (Hstop d s) as (Hu' & Hr' & Hc').
      unfold same_device_but_state. split_and!; congruence.
Qed.

(** C8: on an open device, whatever sequence of [playback_device_get_config],
    [playback_device_start] and [playback_device_stop] is run, every call
    returns and the wrapper stays at its address with the callback, the
    user data and the config it had.  The wrapper's code writes nothing into
    the native device either: the device in the wrapper is exactly what
    miniaudio's own start and stop calls made of it, and miniaudio's state is
    what those calls left.  So when miniaudio's start and stop change only
    what miniaudio keeps for itself, the native device still has its
    user-data pointer, sample rate and channel count. *)
Theorem device_ops_keep_wrapper ops :
  forall (w : world) p wd d,
    p <> NULL -> heap w !! p = Some (BWrapped wd) -> device wd = Some d ->
    exists w',
      run_ops p ops w = Done tt w' /\
      heap w' = <[p := BWrapped {| device := Some (fst (native_run ops d (native w)));
                                   callback := callback wd;
                                   rust_userdata := rust_userdata wd;
                                   config := config wd |}]> (heap w) /\
      native w' = snd (native_run ops d (native w)) /\
      read_config (config_of p) w' = Some (config wd) /\
      log_callbacks w' = log_callbacks w /\
      alloc_plan w' = alloc_plan w /\
      ((forall d0 s0, same_device_but_state (snd (fst (ma_device_start d0 s0))) d0) ->
       (forall d0 s0, same_device_but_state (snd (fst (ma_device_stop d0 s0))) d0) ->
       same_device_but_state (fst (native_run ops d (native w))) d).
Proof.
  induction ops as [|o ops IH]; intros w p wd d Hp Hb Hd.
  - exists w. split_and!; try reflexivity.
    + symmetry. apply insert_id. rewrite Hb. destruct wd; simpl in *; by subst.
    + simpl. by rewrite Hb.
    + intros _ _. by unfold same_device_but_state.
  - assert (Hnext : forall f fnull,
              exists w',
                (ma_device_call p f fnull ;;; ret tt ;;; run_ops p ops) w = Done tt w' /\
                heap w' =
                  <[p := BWrapped
                           {| device :=
                                Some (fst (native_run ops (snd (fst (f d (native w))))
                                             (snd (f d (native w)))));
                              callback := callback wd;
                              rust_userdata := rust_userdata wd;
                              config := config wd |}]> (heap w) /\
                native w' = snd (native_run ops (snd (fst (f d (native w))))
                                   (snd (f d (native w)))) /\
                read_config (config_of p) w' = Some (config wd) /\
                log_callbacks w' = log_callbacks w /\
                alloc_plan w' = alloc_plan w).
    { intros f fnull. unfold bind at 1 2.
      rewrite (ma_device_call_live p wd d f fnull w Hp Hb Hd). unfold ret at 1.
      destruct (IH (set_heap
                      (<[p := BWrapped {| device := Some (snd (fst (f d (native w))));
                                          callback := callback wd;
                                          rust_userdata := rust_userdata wd;
                                          config := config wd |}]> (heap w))
                      (set_native (snd (f d (native w))) w))
                  p {| device := Some (snd (fst (f d (native w))));
                       callback := callback wd;
                       rust_userdata := rust_userdata wd;
                       config := config wd |}
                  (snd (fst (f d (native w)))) Hp)
        as (w' & Hr & Hh & Hn & Hc & Hl & Ha & _).
      { simpl. apply lookup_insert_eq. }
      { reflexivity. }
      simpl in *. exists w'. split_and!; try done.
      rewrite Hh. apply insert_insert_eq. }
    destruct o; simpl.
    + destruct (IH w p wd d Hp Hb Hd) as (w' & Hr & Hh & Hn & Hc & Hl & Ha & Hs).
      exists w'. split_and!; done.
    + destruct (Hnext ma_device_start ma_device_start_null)
        as (w' & Hr & Hh & Hn & Hc & Hl & Ha).
      exists w'. split_and!; try done.
      * unfold playback_device_start, bind in *. unfold bind in Hr.
        destruct (ma_device_call p ma_device_start ma_device_start_null w); done.
      * intros Hstart Hstop.
        apply (native_run_same_device (op_start :: ops) Hstart Hstop d (native w)).
    + destruct (Hnext ma_device_stop ma_device_stop_null)
        as (w' & Hr & Hh & Hn & Hc & Hl & Ha).
      exists w'. split_and!; try done.
      * unfold playback_device_stop, bind in *. unfold bind in Hr.
        destruct (ma_device_call p ma_device_stop ma_device_stop_null w); done.
      * intros Hstart Hstop.
        apply (native_run_same_device (op_stop :: ops) Hstart Hstop d (native w)).
Qed.

End Properties.

(** * The properties on concrete runs *)

Example open_stereo :
  @playback_device_open no_devices stereo 100 7 (@initial_world no_devices [] [])
  = Done 1 opened_world.
Proof. reflexivity. Qed.

Lemma log_callback_delivers_witness :
  @log_callback no_devices 0 3 "info" logging_world =
    Done tt (@set_trace no_devices [LogSink 13 "info"] logging_world) /\
  @log_callback no_devices 0 4 "debug" logging_world =
    Done tt (@set_trace no_devices [LogSink 11 "debug"] logging_world).
Proof.
  split.
  - apply (proj1 (@log_callback_delivers no_devices 0 Info "info" logging_world)).
    simpl. discriminate.
  - apply (proj2 (@log_callback_delivers no_devices 0 Debug "debug" logging_world)).
    + reflexivity.
    + simpl. discriminate.
Defined.

Lemma init_logging_keeps_sinks_witness :
  exists w',
    @init_logging no_devices 11 12 13 14 (@initial_world no_devices [1] []) = Done 0 w' /\
    log_callbacks w' = {| lc_error := 11; lc_warn := 12; lc_info := 13; lc_debug := 14 |}.
Proof.
  pose proof (@init_logging_keeps_sinks no_devices 11 12 13 14
                (@initial_world no_devices [1] [])) as Hthm.
  simpl in Hthm.
  destruct Hthm as [_ (r & w' & Hrun & Hsinks & _ & _ & _ & _ & Hfail)].
  destruct Hfail as [Hr _]; [discriminate|].
  exists w'. rewrite Hrun, Hr. split; [reflexivity|exact Hsinks].
Defined.

Lemma enumerate_fails_iff_query_fails_witness :
  (exists w', @enumerate_output_devices no_devices 100 7 (@initial_world no_devices [] [])
              = Done 1 w' /\ trace w' = [] /\ heap w' = ∅) /\
  (exists w', @enumerate_output_devices no_devices 100 7 (@initial_world no_devices [5] [])
              = Done 0 w').
Proof.
  split.
  - apply (proj2 (proj2 (@enumerate_fails_iff_query_fails no_devices 100 7
                           (@initial_world no_devices [] [])))); reflexivity.
  - apply (proj2 (proj1 (@enumerate_fails_iff_query_fails no_devices 100 7
                           (@initial_world no_devices [5] [])))).
    simpl. discriminate.
Defined.

(** The identifier block of the second device cannot be had: the first
    device is delivered, the name copy of the second is given back. *)
Lemma enumerate_stops_at_failed_allocation_witness :
  exists w' infos,
    @enumerate_output_devices two_devices 100 7
      (@initial_world two_devices [] [true; true; true; false]) = Done 1 w' /\
    length infos = 1%nat /\
    trace w' = map (fun i => Visit 100 i 7) infos /\
    Forall2 (descriptor_of (heap w')) infos [speakers] /\
    ∅ ⊆ heap w' /\
    dom (heap w') = ∅ ∪ blocks_of infos /\
    alloc_plan w' = [].
Proof.
  apply (@enumerate_stops_at_failed_allocation two_devices 100 7
           (@initial_world two_devices [] [true; true; true; false])
           [speakers] headset [] []).
  - discriminate.
  - reflexivity.
  - reflexivity.
  - right. reflexivity.
Defined.

Lemma enumerate_hands_descriptors_over_witness :
  exists r w' infos,
    @enumerate_output_devices two_devices 100 7 (@initial_world two_devices [] [])
      = Done r w' /\
    trace w' = map (fun i => Visit 100 i 7) infos /\
    Forall2 (descriptor_of (heap w')) infos (take (length infos) [speakers; headset]) /\
    ∅ ⊆ heap w' /\
    dom (heap w') = ∅ ∪ blocks_of infos /\
    (forall i, i ∈ infos ->
       @device_info_deinit two_devices (Some i) w' =
       Done tt (@set_heap two_devices
                  (delete (di_id i) (delete (di_name i) (heap w'))) w')).
Proof.
  apply (@enumerate_hands_descriptors_over two_devices 100 7
           (@initial_world two_devices [] [])).
  discriminate.
Defined.

(** C1 as it is written fails: after enumerating one device, with every
    allocation granted, the call has returned and the name copy and the
    identifier block of the descriptor the visitor saw are still live. *)
Lemma enumerate_leaves_descriptor_live :
  exists w',
    @enumerate_output_devices one_device 100 7 (@initial_world one_device [] [])
      = Done 1 w' /\
    trace w' = [Visit 100 {| di_name := 1; di_is_platform_default := 1; di_id := 2 |} 7] /\
    heap w' !! 1 = Some (BString "Speakers") /\
    heap w' !! 2 = Some (BDeviceId (Some [Byte.x01; Byte.x02])) /\
    heap w' <> heap (@initial_world one_device [] []).
Proof.
  eexists. split; [reflexivity|]. split_and!; try reflexivity.
  intros Heq. apply (f_equal (fun h => h !! 1)) in Heq. vm_compute in Heq. discriminate.
Qed.

Lemma playback_device_destroy_cases_witness :
  @playback_device_destroy no_devices 1 opened_world =
    Done tt (@set_heap no_devices (delete 1 (heap opened_world))
               (@set_native no_devices [] opened_world)) /\
  (@playback_device_destroy no_devices 1 ;;; @playback_device_destroy no_devices 1)
    opened_world = Undefined DeadAccess.
Proof.
  apply (proj1 (proj2 (@playback_device_destroy_cases no_devices opened_world))
           1 opened_wrapper
           {| dev_pUserData := 1; dev_sampleRate := 48000;
              dev_playback_channels := 2; dev_internal := [] |}).
  - discriminate.
  - reflexivity.
  - reflexivity.
Defined.

(** C5 as it is written fails: a device is opened and destroyed twice; the
    second call does not return. *)
Lemma destroy_twice_is_undefined :
  @playback_device_open no_devices stereo 100 7 (@initial_world no_devices [] [])
    = Done 1 opened_world /\
  ~ exists w',
      (@playback_device_destroy no_devices 1 ;;; @playback_device_destroy no_devices 1)
        opened_world = Done tt w'.
Proof.
  split; [reflexivity|]. intros [w' Hrun]. vm_compute in Hrun. discriminate.
Qed.

Lemma playback_device_open_native_failure_witness :
  exists w',
    @playback_device_open no_devices stereo 100 7 (@initial_world no_devices [1] [])
      = Done NULL w' /\
    heap w' = ∅ /\
    log_callbacks w' = log_callbacks (@initial_world no_devices [1] []) /\
    trace w' = [] /\
    forall cb' ud',
      @playback_device_open no_devices stereo cb' ud' (@initial_world no_devices [1] [])
      = Done NULL w'.
Proof.
  apply (@playback_device_open_native_failure no_devices stereo 100 7
           (@initial_world no_devices [1] [])).
  - discriminate.
  - simpl. discriminate.
Defined.

Lemma playback_device_open_alloc_failure_witness :
  @playback_device_open no_devices stereo 100 7 (@initial_world no_devices [] [false])
  = Undefined NullDeref.
Proof.
  apply (proj1 (@playback_device_open_alloc_failure no_devices stereo 100 7
                  (@initial_world no_devices [] [false])) []).
  reflexivity.
Defined.

Lemma data_proc_forwards_witness :
  @data_proc no_devices 1 500 0 512 opened_world =
  Done tt (@set_trace no_devices [Playback 100 500 1024 (config_of 1) 7] opened_world).
Proof.
  apply (proj1 (@data_proc_forwards no_devices opened_world 1 opened_wrapper
                  {| dev_pUserData := 1; dev_sampleRate := 48000;
                     dev_playback_channels := 2; dev_internal := [] |}
                  opened_wrapper 100 7 500 0 512
                  ltac:(discriminate) ltac:(reflexivity) ltac:(reflexivity)
                  ltac:(discriminate) ltac:(reflexivity) ltac:(reflexivity)
                  ltac:(discriminate) ltac:(reflexivity))).
Defined.

(** C7: the code on 2^31 frames and a stereo device.  The product of frame
    count and channel count is 2^32, but [data_proc] forms it in 32 bits
    before it is widened to the [unsigned long long] parameter: the callback
    is called with a sample count of 0. *)
Lemma data_proc_wraps_sample_count :
  @data_proc no_devices 1 500 0 2147483648 opened_world =
    Done tt (@set_trace no_devices [Playback 100 500 0 (config_of 1) 7] opened_world) /\
  @data_proc no_devices 1 500 0 2147483648 opened_world <>
    Done tt (@set_trace no_devices
               [Playback 100 500 (2147483648 * 2) (config_of 1) 7] opened_world).
Proof.
  split; [reflexivity|]. intros Hrun. vm_compute in Hrun. discriminate.
Qed.

Lemma device_ops_keep_wrapper_witness :
  exists w',
    @run_ops no_devices 1 [op_start; op_get_config; op_stop] opened_world = Done tt w' /\
    heap w' = <[1 := BWrapped opened_wrapper]> (heap opened_world) /\
    native w' = [] /\
    @read_config no_devices (config_of 1) w' =
      Some {| cfg_sr := Some 48000; cfg_channels := Some 2 |} /\
    log_callbacks w' = log_callbacks opened_world /\
    alloc_plan w' = [] /\
    same_device_but_state
      {| dev_pUserData := 1; dev_sampleRate := 48000;
         dev_playback_channels := 2; dev_internal := [] |}
      {| dev_pUserData := 1; dev_sampleRate := 48000;
         dev_playback_channels := 2; dev_internal := [] |}.
Proof.
  destruct (@device_ops_keep_wrapper no_devices [op_start; op_get_config; op_stop]
              opened_world 1 opened_wrapper
              {| dev_pUserData := 1; dev_sampleRate := 48000;
                 dev_playback_channels := 2; dev_internal := [] |}
              ltac:(discriminate) ltac:(reflexivity) ltac:(reflexivity))
    as (w' & Hrun & Hheap & Hnative & Hcfg & Hsinks & Hplan & Hsame).
  exists w'. split_and!.
  - exact Hrun.
  - exact Hheap.
  - exact Hnative.
  - exact Hcfg.
  - exact Hsinks.
  - exact Hplan.
  - apply Hsame; intros d0 s0; repeat split.
Defined.

(** * Further properties of the wrapper *)

Section Logging.
Context `{Miniaudio}.

(** [init_context] returns 1 when [ma_context_init] answers [MA_SUCCESS] and
    0 otherwise; it changes miniaudio's state only. *)
Lemma init_context_result (w : world) :
  exists r,
    init_context w = Done r (set_native (snd (ma_context_init (native w))) w) /\
    (r = 0 \/ r = 1) /\
    (r = 1 <-> fst (ma_context_init (native w)) = MA_SUCCESS).
Proof.
  unfold init_context, ma_call, bind, ret.
  destruct (ma_context_init (native w)) as [a s]. simpl.
  destruct (decide (a <> MA_SUCCESS)) as [Ha|Ha].
  - exists 0. split_and!; auto. intuition (congruence || lia).
  - apply dec_stable in Ha. exists 1. split_and!; auto. tauto.
Qed.

(** X1: a message whose level is none of the four level constants goes to
    the error sink; without an error sink the call goes through NULL. *)
Theorem log_callback_unknown_level userdata level message (w : world) :
  level <> MA_LOG_LEVEL_DEBUG -> level <> MA_LOG_LEVEL_INFO ->
  level <> MA_LOG_LEVEL_WARNING -> level <> MA_LOG_LEVEL_ERROR ->
  (lc_error (log_callbacks w) <> NULL ->
   log_callback userdata level message w =
   Done tt (set_trace (trace w ++ [LogSink (lc_error (log_callbacks w)) message]) w)) /\
  (lc_error (log_callbacks w) = NULL ->
   log_callback userdata level message w = Undefined NullCall).
Proof.
  intros Hd Hi Hw He.
  assert (Hrun : log_callback userdata level message w =
                 call (lc_error (log_callbacks w))
                   (LogSink (lc_error (log_callbacks w)) message) w).
  { unfold log_callback, get_log_callbacks, bind, LVL.
    repeat (case_decide; [exfalso; tauto|]). reflexivity. }
  rewrite Hrun. split.
  - intros Hn. by apply call_non_null.
  - intros ->. reflexivity.
Qed.

(** X2: whatever the level, [log_callback] either calls exactly one of the
    four registered sinks, a non-NULL one, with the message as it came, and
    changes nothing else, or it has no error sink to fall back on and calls
    through NULL.  It never returns without having delivered the message. *)
Theorem log_callback_outcome userdata level message (w : world) :
  (exists f,
     f <> NULL /\
     f ∈ [lc_debug (log_callbacks w); lc_info (log_callbacks w);
          lc_warn (log_callbacks w); lc_error (log_callbacks w)] /\
     log_callback userdata level message w =
     Done tt (set_trace (trace w ++ [LogSink f message]) w)) \/
  (lc_error (log_callbacks w) = NULL /\
   log_callback userdata level message w = Undefined NullCall).
Proof.
  unfold log_callback, get_log_callbacks, bind, LVL.
  repeat (case_decide as Hg;
          [ left; destruct Hg as [_ Hg]; eexists; split; [exact Hg|];
            split; [|by apply call_non_null]; set_solver | clear Hg ]).
  destruct (decide (lc_error (log_callbacks w) = NULL)) as [He|He].
  - right. split; [done|]. rewrite He. reflexivity.
  - left. eexists. split; [exact He|]. split; [set_solver|by apply call_non_null].
Qed.

(** X3: when both native calls of [init_logging] succeed, so that
    [log_callback] is registered with miniaudio, [init_logging] returns 1,
    and after [init_context], whatever that one returns, [log_callback] hands
    a message of a severity to the sink that was passed for that severity,
    or to the error sink that was passed when that one is NULL:
    [init_context] does not touch the sinks. *)
Theorem init_then_log_callback (e wn i d : Z) userdata sev message (w : world) :
  let sinks := {| lc_error := e; lc_warn := wn; lc_info := i; lc_debug := d |} in
  let target := if decide (sink_of sinks sev = NULL) then e else sink_of sinks sev in
  target <> NULL ->
  fst (ma_log_init (native w)) = MA_SUCCESS ->
  fst (ma_log_register_callback (snd (ma_log_init (native w)))) = MA_SUCCESS ->
  exists w1 r2 w2,
    init_logging e wn i d w = Done 1 w1 /\
    init_context w1 = Done r2 w2 /\
    log_callbacks w2 = sinks /\
    log_callback userdata (level_of sev) message w2 =
    Done tt (set_trace (trace w2 ++ [LogSink target message]) w2).
Proof.
  intros sinks target Ht Hinit Hreg.
  assert (Hlog : exists s,
            init_logging e wn i d w = Done 1 (set_native s (set_log_callbacks sinks w))).
  { unfold init_logging, store_log_callbacks, ma_call, bind, ret. simpl. fold sinks.
    destruct (ma_log_init (native w)) as [a s1]. simpl in *.
    destruct (decide (a <> MA_SUCCESS)); simpl; [contradiction|].
    destruct (ma_log_register_callback s1) as [b s2]. simpl in *.
    destruct (decide (b <> MA_SUCCESS)); simpl; [contradiction|eauto]. }
  destruct Hlog as (s & Hlog).
  destruct (init_context_result (set_native s (set_log_callbacks sinks w)))
    as (r2 & Hctx & _).
  eexists _, r2, _. split; [exact Hlog|]. split; [exact Hctx|]. split; [reflexivity|].
  rewrite log_callback_route. simpl. fold target. by rewrite call_non_null.
Qed.

End Logging.

Section Enumeration.
Context `{Miniaudio}.

(** A round that hands a descriptor over takes both of its blocks from
    addresses that were not live. *)
Lemma enumerate_body_fresh cb ud d (w : world) :
  cb <> NULL ->
  head (alloc_plan w) <> Some false ->
  head (tail (alloc_plan w)) <> Some false ->
  exists i0 w1,
    enumerate_body cb ud d w = Done Next w1 /\
    handed_over cb ud w w1 [i0] [d] /\
    alloc_plan w1 = tail (tail (alloc_plan w)) /\
    heap w !! di_name i0 = None /\ heap w !! di_id i0 = None.
Proof.
  intros Hcb H1 H2.
  destruct (enumerate_body_delivers cb ud d w Hcb H1 H2) as (i0 & w1 & Hb & Hh & Hp).
  exists i0, w1. split_and!; try done.
  all: rewrite (enumerate_body_cases cb ud d w Hcb) in Hb;
    destruct Hh as (Ht & _); simpl in Ht;
    destruct (alloc_plan w) as [|[] [|[] ?]]; simpl in *; try done;
    injection Hb as <-; simpl in Ht;
    apply app_inv_head in Ht; injection Ht as <-; simpl.
  all: try apply fresh_addr_fresh.
  all: match goal with
       | |- heap ?w0 !! fresh_addr ?h1 = None =>
           pose proof (fresh_addr_fresh h1) as Hf;
           destruct (decide (fresh_addr (heap w0) = fresh_addr h1)) as [He|Hne];
           [ rewrite <- He in Hf; by rewrite lookup_insert_eq in Hf
           | by rewrite lookup_insert_ne in Hf ]
       end.
Qed.

(** The loop, with the addresses it takes: the blocks of the descriptors it
    hands over are pairwise different, not NULL, and were not live before;
    when no allocation fails it runs to its end. *)
Lemma enumerate_loop_fresh cb ud devs :
  cb <> NULL ->
  forall w : world, exists f w' infos,
    enumerate_loop cb ud devs w = Done f w' /\
    handed_over cb ud w w' infos (take (length infos) devs) /\
    NoDup (block_list infos) /\
    (forall a, a ∈ block_list infos -> a <> NULL /\ heap w !! a = None) /\
    (f = Next -> length infos = length devs) /\
    (false ∉ alloc_plan w -> f = Next).
Proof.
  intros Hcb. induction devs as [|d devs IH]; intros w.
  - exists Next, w, []. split_and!; auto.
    + by apply handed_over_nil.
    + constructor.
    + intros a Ha. by apply not_elem_of_nil in Ha.
  - simpl. unfold bind. destruct (plan_cases (alloc_plan w)) as [[H1 H2]|Hfail].
    + destruct (enumerate_body_fresh cb ud d w Hcb H1 H2)
        as (i0 & w1 & -> & Hh & Hp & Hfn & Hfi).
      destruct (IH w1) as (f & w' & infos & -> & Hh' & Hnd & Hfr & Hlen & Hall).
      pose proof Hh as (_ & Hdesc & Hsub & _).
      apply Forall2_cons_1 in Hdesc as [(Hn0 & Hi0 & Hn & Hi & _) _].
      exists f, w', (i0 :: infos). split_and!.
      * reflexivity.
      * simpl. by eapply handed_over_cons.
      * unfold block_list. simpl. fold (block_list infos).
        apply NoDup_cons. split.
        { rewrite not_elem_of_cons. split; [congruence|].
          intros Hin. apply Hfr in Hin as [_ Hin]. congruence. }
        apply NoDup_cons. split; [|done].
        intros Hin. apply Hfr in Hin as [_ Hin]. congruence.
      * intros a. unfold block_list. simpl. fold (block_list infos).
        rewrite !elem_of_cons. intros [->|[->|Hin]]; [done|done|].
        apply Hfr in Hin as [Ha Hnone]. split; [done|].
        destruct (heap w !! a) eqn:E; [|done].
        apply (lookup_weaken _ (heap w1)) in E; [congruence|done].
      * intros Hnext. simpl. by rewrite Hlen.
      * intros Hplan. apply Hall. rewrite Hp. intros Hin.
        apply Hplan. destruct (alloc_plan w) as [|? [|? ?]]; simpl in *; set_solver.
    + destruct (enumerate_body_gives_up cb ud d w Hcb Hfail) as (w1 & -> & Hh & _).
      exists (Return 1), w1, []. split_and!; auto.
      * constructor.
      * intros a Ha. by apply not_elem_of_nil in Ha.
      * discriminate.
      * intros Hplan. exfalso. apply Hplan.
        destruct (alloc_plan w) as [|[] [|[] ?]]; simpl in *; set_solver.
Qed.

(** X4: when the query succeeds and no allocation fails, the visitor is
    called once for every playback device, in the order miniaudio reported
    them, each time with live copies of that device's name and identifier
    and with the default flag cut to 8 bits; the call returns 1. *)
Theorem enumerate_delivers_every_device cb ud (w : world) :
  cb <> NULL ->
  fst (fst (ma_context_get_devices (native w))) = MA_SUCCESS ->
  false ∉ alloc_plan w ->
  exists w' infos,
    enumerate_output_devices cb ud w = Done 1 w' /\
    trace w' = trace w ++ map (fun i => Visit cb i ud) infos /\
    Forall2 (descriptor_of (heap w')) infos
      (snd (fst (ma_context_get_devices (native w)))).
Proof.
  intros Hcb Hq Hplan. rewrite enumerate_output_devices_unfold. simpl.
  case_decide; [contradiction|].
  destruct (enumerate_loop_fresh cb ud (snd (fst (ma_context_get_devices (native w)))) Hcb
              (set_native (snd (ma_context_get_devices (native w))) w))
    as (f & w' & infos & -> & (Ht & Hf & _) & _ & _ & Hlen & Hall).
  rewrite (Hall Hplan) in *. exists w', infos. split_and!; try done.
  rewrite (Hlen eq_refl), firstn_all in Hf. exact Hf.
Qed.

(** X5: the blocks [enumerate_output_devices] hands to the visitor are
    independent copies: taken over all descriptors of one call, the name and
    identifier addresses are pairwise different, none is NULL, none was live
    before the call, and all are live after it. *)
Theorem enumerate_blocks_are_fresh cb ud (w : world) :
  cb <> NULL ->
  exists r w' infos,
    enumerate_output_devices cb ud w = Done r w' /\
    trace w' = trace w ++ map (fun i => Visit cb i ud) infos /\
    NoDup (block_list infos) /\
    forall a, a ∈ block_list infos ->
      a <> NULL /\ heap w !! a = None /\ is_Some (heap w' !! a).
Proof.
  intros Hcb. rewrite enumerate_output_devices_unfold. simpl.
  case_decide.
  - eexists 0, _, []. split_and!; try reflexivity.
    + simpl. by rewrite app_nil_r.
    + constructor.
    + intros a Ha. by apply not_elem_of_nil in Ha.
  - destruct (enumerate_loop_fresh cb ud (snd (fst (ma_context_get_devices (native w)))) Hcb
                (set_native (snd (ma_context_get_devices (native w))) w))
      as (f & w' & infos & Hloop & (Ht & _ & _ & Hd & _) & Hnd & Hfr & _ & _).
    rewrite Hloop. exists 1, w', infos. split_and!; try done.
    + destruct (enumerate_loop_flow _ _ _ _ _ _ Hloop) as [->| ->]; reflexivity.
    + intros a Ha. destruct (Hfr a Ha) as [Hn Hnone]. split_and!; try done.
      apply elem_of_dom. rewrite Hd. apply elem_of_union_r.
      unfold blocks_of. by apply elem_of_list_to_set.
Qed.

(** Releasing descriptors whose blocks are live and pairwise different frees
    exactly those blocks. *)
Lemma deinit_all_frees infos :
  forall w1 : world,
    NoDup (block_list infos) ->
    (forall a, a ∈ block_list infos -> a <> NULL /\ is_Some (heap w1 !! a)) ->
    exists w2,
      deinit_all infos w1 = Done tt w2 /\
      (forall k, heap w2 !! k = if decide (k ∈ block_list infos) then None
                                else heap w1 !! k) /\
      trace w2 = trace w1 /\ native w2 = native w1 /\
      log_callbacks w2 = log_callbacks w1 /\ alloc_plan w2 = alloc_plan w1.
Proof.
  induction infos as [|i infos IH]; intros w1 Hnd Hlive.
  - exists w1. split_and!; reflexivity.
  - unfold block_list in *. simpl in *. fold (block_list infos) in *.
    apply NoDup_cons in Hnd as [Hn Hnd]. apply NoDup_cons in Hnd as [Hi Hnd].
    apply not_elem_of_cons in Hn as [Hne Hn].
    destruct (Hlive (di_name i)) as [Hn0 [bn Hbn]]; [set_solver|].
    destruct (Hlive (di_id i)) as [Hi0 [bi Hbi]]; [set_solver|].
    unfold bind. rewrite (free_live _ _ _ Hn0 Hbn). simpl.
    erewrite free_live; [|done|simpl; rewrite lookup_delete_ne by done; exact Hbi].
    simpl.
    edestruct IH as (w2 & -> & Hk & Ht & Hna & Hl & Ha); [exact Hnd| |].
    { intros a Ha. destruct (Hlive a) as [Ha0 Hal]; [set_solver|]. split; [done|].
      simpl. rewrite !lookup_delete_ne by (intros He; rewrite <- He in Ha; contradiction).
      done. }
    exists w2. split_and!; try done. intros k. rewrite Hk. simpl.
    destruct (decide (k = di_name i)) as [->|Hkn].
    { rewrite (decide_False (P := di_name i ∈ block_list infos)) by done.
      rewrite decide_True by (by left).
      rewrite lookup_delete_ne by done. apply lookup_delete_eq. }
    destruct (decide (k = di_id i)) as [->|Hki].
    { rewrite (decide_False (P := di_id i ∈ block_list infos)) by done.
      rewrite decide_True by (right; by left).
      apply lookup_delete_eq. }
    rewrite !lookup_delete_ne by done.
    destruct (decide (k ∈ block_list infos)) as [Hin|Hin].
    + rewrite decide_True by (right; by right). reflexivity.
    + rewrite decide_False; [reflexivity|].
      rewrite !not_elem_of_cons. done.
Qed.

(** X6: when the client releases, with [device_info_deinit], every
    descriptor its visitor was called with, the heap is again what it was
    before [enumerate_output_devices]: the call and the releases together
    leak nothing and free nothing that was there before. *)
Theorem enumerate_then_deinit_restores_heap cb ud (w : world) :
  cb <> NULL ->
  exists r w' infos w'',
    enumerate_output_devices cb ud w = Done r w' /\
    trace w' = trace w ++ map (fun i => Visit cb i ud) infos /\
    deinit_all infos w' = Done tt w'' /\
    heap w'' = heap w /\
    trace w'' = trace w'.
Proof.
  intros Hcb. rewrite enumerate_output_devices_unfold. simpl.
  case_decide.
  - eexists 0, _, [], _. split_and!; try reflexivity. simpl. by rewrite app_nil_r.
  - destruct (enumerate_loop_fresh cb ud (snd (fst (ma_context_get_devices (native w)))) Hcb
                (set_native (snd (ma_context_get_devices (native w))) w))
      as (f & w' & infos & Hloop & (Ht & _ & Hsub & Hd & _) & Hnd & Hfr & _ & _).
    simpl in *.
    assert (Hin : forall a, a ∈ block_list infos <-> a ∈ blocks_of infos).
    { intros a. unfold blocks_of. by rewrite elem_of_list_to_set. }
    destruct (deinit_all_frees infos w' Hnd) as (w'' & Hde & Hk & Ht' & _).
    { intros a Ha. destruct (Hfr a Ha) as [Ha0 _]. split; [done|].
      apply elem_of_dom. rewrite Hd. apply elem_of_union_r. by apply Hin. }
    rewrite Hloop. exists 1, w', infos, w''. split_and!; try done.
    + destruct (enumerate_loop_flow _ _ _ _ _ _ Hloop) as [->| ->]; reflexivity.
    + apply map_eq. intros k. rewrite Hk. case_decide as Hkin.
      * symmetry. by apply Hfr.
      * destruct (heap w !! k) as [b|] eqn:E.
        { by apply (lookup_weaken _ _ _ _ E). }
        apply not_elem_of_dom. rewrite Hd. rewrite not_elem_of_union. split.
        { by apply not_elem_of_dom. }
        { by rewrite <- Hin. }
Qed.

(** X7: a NULL visitor is called all the same: when the query reports at
    least one device and both allocations for the first one succeed,
    [enumerate_output_devices] calls through NULL. *)
Theorem enumerate_null_visitor ud (w : world) d rest :
  fst (fst (ma_context_get_devices (native w))) = MA_SUCCESS ->
  snd (fst (ma_context_get_devices (native w))) = d :: rest ->
  head (alloc_plan w) <> Some false ->
  head (tail (alloc_plan w)) <> Some false ->
  enumerate_output_devices NULL ud w = Undefined NullCall.
Proof.
  intros Hq Hdevs H1 H2. rewrite enumerate_output_devices_unfold. simpl.
  case_decide; [contradiction|]. rewrite Hdevs. simpl.
  unfold bind, enumerate_body, strdup, bind.
  rewrite alloc_succeeds by done.
  case_decide as Hn; [by apply fresh_addr_not_null in Hn|].
  rewrite alloc_succeeds by done.
  case_decide as Hi; [by apply fresh_addr_not_null in Hi|].
  erewrite store_device_id_live;
    [|apply fresh_addr_not_null|by apply lookup_insert_eq].
  reflexivity.
Qed.

(** X8: [device_info_deinit] does nothing on a NULL pointer and nothing on
    a descriptor whose two pointers are NULL; it does not remember what it
    freed: releasing the same live descriptor a second time frees a dead
    block. *)
Theorem device_info_deinit_edge_cases (w : world) :
  device_info_deinit None w = Done tt w /\
  (forall flag,
     device_info_deinit
       (Some {| di_name := NULL; di_is_platform_default := flag; di_id := NULL |}) w
     = Done tt w) /\
  (forall i bn bi,
     di_name i <> NULL -> di_id i <> NULL -> di_name i <> di_id i ->
     heap w !! di_name i = Some bn -> heap w !! di_id i = Some bi ->
     (device_info_deinit (Some i) ;;; device_info_deinit (Some i)) w
     = Undefined InvalidFree).
Proof.
  split_and!; [reflexivity|reflexivity|].
  intros i bn bi Hn0 Hi0 Hne Hbn Hbi. unfold device_info_deinit, bind.
  rewrite (free_live _ _ _ Hn0 Hbn). simpl.
  erewrite free_live; [|done|simpl; rewrite lookup_delete_ne by done; exact Hbi].
  simpl. rewrite free_dead; [reflexivity|done|]. simpl.
  rewrite lookup_delete_ne by done. apply lookup_delete_eq.
Qed.

End Enumeration.

Section Devices.
Context `{Miniaudio}.

(** X9: when the wrapper block is obtained and [ma_device_init] answers
    [MA_SUCCESS], [playback_device_open] returns a handle that is not NULL
    and was not live; the wrapper behind it holds the callback and the user
    data it was given, and its config, which is what
    [playback_device_get_config] points to, has the sample rate and channel
    count of the device miniaudio built, whatever was asked for.  No other
    block changes and the sinks stay installed. *)
Theorem playback_device_open_success options cb ud (w : world) :
  let r := ma_device_init (open_config options (fresh_addr (heap w))) (native w) in
  let d := snd (fst r) in
  head (alloc_plan w) <> Some false ->
  fst (fst r) = MA_SUCCESS ->
  exists p w',
    playback_device_open options cb ud w = Done p w' /\
    p <> NULL /\ heap w !! p = None /\
    heap w' = <[p := BWrapped
                       {| device := Some d; callback := Some cb;
                          rust_userdata := Some ud;
                          config := {| cfg_sr := Some (dev_sampleRate d);
                                       cfg_channels := Some (dev_playback_channels d) |} |}]>
                (heap w) /\
    playback_device_get_config p w' = Done (config_of p) w' /\
    read_config (config_of p) w' =
      Some {| cfg_sr := Some (dev_sampleRate d);
              cfg_channels := Some (dev_playback_channels d) |} /\
    log_callbacks w' = log_callbacks w.
Proof.
  intros r d Hplan Hinit. rewrite playback_device_open_cases. fold r. fold d.
  exists (fresh_addr (heap w)).
  destruct (alloc_plan w) as [|[] ?]; simpl in *; try done;
    (case_decide; [contradiction|]);
    eexists; (split; [reflexivity|]); simpl;
    (split_and!; try reflexivity;
     [apply fresh_addr_not_null | apply fresh_addr_fresh | by rewrite lookup_insert_eq]).
Qed.

(** X10: a device opened on a miniaudio that keeps the user-data pointer it
    was configured with is served by [data_proc] as the client expects: the
    callback passed to [playback_device_open] is called once, with the user
    data passed there, the output pointer, the address of the device's
    config, and frames times channels taken in 32 bits. *)
Theorem playback_device_open_then_data_proc options cb ud output input frames
    (w : world) :
  let r := ma_device_init (open_config options (fresh_addr (heap w))) (native w) in
  let d := snd (fst r) in
  head (alloc_plan w) <> Some false ->
  fst (fst r) = MA_SUCCESS ->
  dev_pUserData d = mc_pUserData (open_config options (fresh_addr (heap w))) ->
  cb <> NULL ->
  exists p w',
    playback_device_open options cb ud w = Done p w' /\
    data_proc p output input frames w' =
    Done tt (set_trace
               (trace w ++
                [Playback cb output (wrap32 (frames * dev_playback_channels d))
                   (config_of p) ud]) w').
Proof.
  intros r d Hplan Hinit Hud Hcb. simpl in Hud.
  assert (Hp : fresh_addr (heap w) <> NULL) by apply fresh_addr_not_null.
  rewrite playback_device_open_cases. fold r. fold d.
  exists (fresh_addr (heap w)).
  destruct (alloc_plan w) as [|[] ?]; simpl in *; try done;
    (case_decide; [contradiction|]);
    eexists; (split; [reflexivity|]);
    unfold data_proc, bind;
    (erewrite load_wrapped_live; [|done|by apply lookup_insert_eq]); simpl;
    rewrite Hud;
    (erewrite load_wrapped_live; [|done|by apply lookup_insert_eq]); simpl;
    by rewrite call_non_null.
Qed.

(** X11: [playback_device_destroy] undoes [playback_device_open]: whenever
    the wrapper block is obtained, destroying what open returned, a device
    or NULL after a failed [ma_device_init], returns and leaves the heap
    and the sinks as they were before the open. *)
Theorem playback_device_open_then_destroy options cb ud (w : world) :
  head (alloc_plan w) <> Some false ->
  exists p w' w'',
    playback_device_open options cb ud w = Done p w' /\
    playback_device_destroy p w' = Done tt w'' /\
    heap w'' = heap w /\
    log_callbacks w'' = log_callbacks w.
Proof.
  intros Hplan.
  assert (Hp : fresh_addr (heap w) <> NULL) by apply fresh_addr_not_null.
  assert (Hf : heap w !! fresh_addr (heap w) = None) by apply fresh_addr_fresh.
  rewrite playback_device_open_cases.
  destruct (alloc_plan w) as [|[] ?]; simpl in *; try done;
    (case_decide;
     [ eexists NULL, _, _; split_and!; reflexivity
     | eexists (fresh_addr (heap w)), _, _; split; [reflexivity|];
       unfold playback_device_destroy, bind;
       (case_decide; [contradiction|]);
       (erewrite load_wrapped_live; [|done|by apply lookup_insert_eq]); simpl;
       (erewrite free_live; [|done|by apply lookup_insert_eq]); simpl;
       split_and!; try reflexivity; by apply delete_insert_id ]).
Qed.

(** X12: on a live device [playback_device_start] and [playback_device_stop]
    return 1 when miniaudio answers [MA_SUCCESS] and 0 otherwise; either
    way the wrapper keeps its callback, user data and config, and holds the
    native device as miniaudio left it. *)
Theorem playback_device_start_stop_result (w : world) p wd d :
  p <> NULL -> heap w !! p = Some (BWrapped wd) -> device wd = Some d ->
  let after (native_call : ma_device -> ma_state -> Z * ma_device * ma_state)
            (run : M Z) :=
    exists r,
      run w =
      Done r (set_heap
                (<[p := BWrapped {| device := Some (snd (fst (native_call d (native w))));
                                    callback := callback wd;
                                    rust_userdata := rust_userdata wd;
                                    config := config wd |}]> (heap w))
                (set_native (snd (native_call d (native w))) w)) /\
      (r = 0 \/ r = 1) /\
      (r = 1 <-> fst (fst (native_call d (native w))) = MA_SUCCESS) in
  after ma_device_start (playback_device_start p) /\
  after ma_device_stop (playback_device_stop p).
Proof.
  intros Hp Hb Hd after.
  assert (Hgen : forall f fnull,
            after f (let* r := ma_device_call p f fnull in
                     ret (if decide (r = MA_SUCCESS) then 1 else 0))).
  { intros f fnull. unfold after, bind.
    rewrite (ma_device_call_live p wd d f fnull w Hp Hb Hd). unfold ret.
    destruct (decide (fst (fst (f d (native w))) = MA_SUCCESS)) as [Hr|Hr].
    - exists 1. split_and!; auto. tauto.
    - exists 0. split_and!; auto. intuition (congruence || lia). }
  split; apply Hgen.
Qed.

(** X13: only [playback_device_destroy] looks at its handle.  On NULL,
    [playback_device_start] and [playback_device_stop] read nothing: they
    hand miniaudio the NULL pointer and return 1 or 0 by its answer, while
    [data_proc] reads through NULL.  On the handle of a device that was
    destroyed, [data_proc] reads a dead block and start and stop hand
    miniaudio a pointer into a dead block, while
    [playback_device_get_config] still returns its pointer, which then
    points to nothing. *)
Theorem device_calls_after_destroy (w : world) p wd d output input frames :
  p <> NULL -> heap w !! p = Some (BWrapped wd) -> device wd = Some d ->
  (playback_device_start NULL w =
     Done (if decide (fst (ma_device_start_null (native w)) = MA_SUCCESS) then 1 else 0)
       (set_native (snd (ma_device_start_null (native w))) w) /\
   playback_device_stop NULL w =
     Done (if decide (fst (ma_device_stop_null (native w)) = MA_SUCCESS) then 1 else 0)
       (set_native (snd (ma_device_stop_null (native w))) w) /\
   data_proc NULL output input frames w = Undefined NullDeref) /\
  exists w',
    playback_device_destroy p w = Done tt w' /\
    playback_device_start p w' = Undefined DeadAccess /\
    playback_device_stop p w' = Undefined DeadAccess /\
    data_proc p output input frames w' = Undefined DeadAccess /\
    playback_device_get_config p w' = Done (config_of p) w' /\
    read_config (config_of p) w' = None.
Proof.
  intros Hp Hb Hd. split.
  { split_and!.
    - unfold playback_device_start, bind, ma_device_call, ma_call. simpl.
      by destruct (ma_device_start_null (native w)).
    - unfold playback_device_stop, bind, ma_device_call, ma_call. simpl.
      by destruct (ma_device_stop_null (native w)).
    - reflexivity. }
  eexists. split.
  - unfold playback_device_destroy, bind. case_decide; [contradiction|].
    rewrite (load_wrapped_live p wd w Hp Hb). rewrite Hd. simpl.
    erewrite free_live; [reflexivity|done|exact Hb].
  - assert (Hdead : forall w0 : world, heap w0 !! p = None ->
              load_wrapped p w0 = Undefined DeadAccess).
    { intros w0 Hn. unfold load_wrapped, bind. by rewrite (deref_dead p w0 Hp Hn). }
    simpl. split_and!.
    + unfold playback_device_start, ma_device_call. case_decide; [contradiction|].
      unfold bind. rewrite Hdead; [reflexivity|apply lookup_delete_eq].
    + unfold playback_device_stop, ma_device_call. case_decide; [contradiction|].
      unfold bind. rewrite Hdead; [reflexivity|apply lookup_delete_eq].
    + unfold data_proc, bind.
      rewrite Hdead; [reflexivity|apply lookup_delete_eq].
    + reflexivity.
    + simpl. by rewrite lookup_delete_eq.
Qed.

(** X14: [playback_device_open] leaves every live block as it is, and a
    handle it returns was not live before; so two devices opened one after
    the other have different handles, and opening the second leaves the
    wrapper of the first untouched. *)
Theorem playback_device_open_twice o1 cb1 ud1 o2 cb2 ud2 (w w1 w2 : world) p1 p2 :
  playback_device_open o1 cb1 ud1 w = Done p1 w1 ->
  playback_device_open o2 cb2 ud2 w1 = Done p2 w2 ->
  p1 <> NULL -> p2 <> NULL ->
  p1 <> p2 /\
  heap w ⊆ heap w1 /\ heap w1 ⊆ heap w2 /\
  is_Some (heap w1 !! p1) /\ heap w2 !! p1 = heap w1 !! p1 /\
  is_Some (heap w2 !! p2).
Proof.
  assert (Hone : forall o cb ud (wa wb : world) p,
            playback_device_open o cb ud wa = Done p wb -> p <> NULL ->
            heap wa ⊆ heap wb /\ heap wa !! p = None /\ is_Some (heap wb !! p)).
  { intros o cb ud wa wb p Hopen Hp. rewrite playback_device_open_cases in Hopen.
    destruct (alloc_plan wa) as [|[] ?]; simpl in *; try done;
      (case_decide; injection Hopen as <- <-; [contradiction|]); simpl;
      (split_and!;
       [ apply insert_subseteq, fresh_addr_fresh
       | apply fresh_addr_fresh
       | rewrite lookup_insert_eq; eauto ]). }
  intros H1 H2 Hp1 Hp2.
  destruct (Hone _ _ _ _ _ _ H1 Hp1) as (Hs1 & Hf1 & [b1 Hl1]).
  destruct (Hone _ _ _ _ _ _ H2 Hp2) as (Hs2 & Hf2 & Hl2).
  split_and!; try done.
  - intros ->. congruence.
  - rewrite Hl1. by apply (lookup_weaken _ _ _ _ Hl1).
Qed.

End Devices.

(** * The further properties on concrete runs *)

Lemma log_callback_unknown_level_witness :
  @log_callback no_devices 0 9 "odd" logging_world =
  Done tt (@set_trace no_devices [LogSink 11 "odd"] logging_world).
Proof.
  apply (proj1 (@log_callback_unknown_level no_devices 0 9 "odd" logging_world
                  ltac:(discriminate) ltac:(discriminate)
                  ltac:(discriminate) ltac:(discriminate))).
  simpl. discriminate.
Defined.

(** Both native calls succeed; the context initialisation is scripted to
    fail (script [0; 0; 1]); a warning, for which no sink was passed, reaches
    the error sink. *)
Lemma init_then_log_callback_witness :
  exists w1 r2 w2,
    @init_logging no_devices 11 0 13 0 (@initial_world no_devices [0; 0; 1] []) = Done 1 w1 /\
    @init_context no_devices w1 = Done r2 w2 /\
    log_callbacks w2 = {| lc_error := 11; lc_warn := 0; lc_info := 13; lc_debug := 0 |} /\
    @log_callback no_devices 0 2 "warn" w2 =
    Done tt (@set_trace no_devices (trace w2 ++ [LogSink 11 "warn"]) w2).
Proof.
  apply (@init_then_log_callback no_devices 11 0 13 0 0 Warning "warn"
           (@initial_world no_devices [0; 0; 1] [])).
  - simpl. discriminate.
  - reflexivity.
  - reflexivity.
Defined.

Lemma enumerate_delivers_every_device_witness :
  exists w' infos,
    @enumerate_output_devices two_devices 100 7 (@initial_world two_devices [] [])
      = Done 1 w' /\
    trace w' = map (fun i => Visit 100 i 7) infos /\
    Forall2 (descriptor_of (heap w')) infos [speakers; headset].
Proof.
  apply (@enumerate_delivers_every_device two_devices 100 7
           (@initial_world two_devices [] [])).
  - discriminate.
  - reflexivity.
  - apply not_elem_of_nil.
Defined.

Lemma enumerate_blocks_are_fresh_witness :
  exists r w' infos,
    @enumerate_output_devices two_devices 100 7 (@initial_world two_devices [] [])
      = Done r w' /\
    trace w' = map (fun i => Visit 100 i 7) infos /\
    NoDup (block_list infos) /\
    forall a, a ∈ block_list infos ->
      a <> NULL /\ (∅ : gmap Z block) !! a = None /\ is_Some (heap w' !! a).
Proof.
  apply (@enumerate_blocks_are_fresh two_devices 100 7
           (@initial_world two_devices [] [])).
  discriminate.
Defined.

Lemma enumerate_then_deinit_restores_heap_witness :
  exists r w' infos w'',
    @enumerate_output_devices two_devices 100 7 (@initial_world two_devices [] [])
      = Done r w' /\
    trace w' = map (fun i => Visit 100 i 7) infos /\
    @deinit_all two_devices infos w' = Done tt w'' /\
    heap w'' = ∅ /\
    trace w'' = trace w'.
Proof.
  apply (@enumerate_then_deinit_restores_heap two_devices 100 7
           (@initial_world two_devices [] [])).
  discriminate.
Defined.

Lemma enumerate_null_visitor_witness :
  @enumerate_output_devices one_device NULL 7 (@initial_world one_device [] [])
  = Undefined NullCall.
Proof.
  apply (@enumerate_null_visitor one_device 7 (@initial_world one_device [] [])
           speakers []).
  - reflexivity.
  - reflexivity.
  - discriminate.
  - discriminate.
Defined.

Lemma device_info_deinit_edge_cases_witness :
  (@device_info_deinit one_device
     (Some {| di_name := 1; di_is_platform_default := 1; di_id := 2 |}) ;;;
   @device_info_deinit one_device
     (Some {| di_name := 1; di_is_platform_default := 1; di_id := 2 |}))
    (@set_heap one_device
       (<[1 := BString "Speakers"]> (<[2 := BDeviceId (Some [Byte.x01; Byte.x02])]> ∅))
       (@initial_world one_device [] []))
  = Undefined InvalidFree.
Proof.
  apply (proj2 (proj2 (@device_info_deinit_edge_cases one_device
                         (@set_heap one_device
                            (<[1 := BString "Speakers"]>
                               (<[2 := BDeviceId (Some [Byte.x01; Byte.x02])]> ∅))
                            (@initial_world one_device [] []))))
           {| di_name := 1; di_is_platform_default := 1; di_id := 2 |}
           (BString "Speakers") (BDeviceId (Some [Byte.x01; Byte.x02]))).
  - discriminate.
  - discriminate.
  - discriminate.
  - reflexivity.
  - reflexivity.
Defined.

Lemma playback_device_open_success_witness :
  exists p w',
    @playback_device_open no_devices stereo 100 7 (@initial_world no_devices [] [])
      = Done p w' /\
    p <> NULL /\ (∅ : gmap Z block) !! p = None /\
    heap w' = <[p := BWrapped opened_wrapper]> ∅ /\
    @playback_device_get_config no_devices p w' = Done (config_of p) w' /\
    @read_config no_devices (config_of p) w' =
      Some {| cfg_sr := Some 48000; cfg_channels := Some 2 |} /\
    log_callbacks w' = log_callbacks (@initial_world no_devices [] []).
Proof.
  apply (@playback_device_open_success no_devices stereo 100 7
           (@initial_world no_devices [] [])).
  - discriminate.
  - reflexivity.
Defined.

Lemma playback_device_open_then_data_proc_witness :
  exists p w',
    @playback_device_open no_devices stereo 100 7 (@initial_world no_devices [] [])
      = Done p w' /\
    @data_proc no_devices p 500 0 512 w' =
    Done tt (@set_trace no_devices [Playback 100 500 1024 (config_of p) 7] w').
Proof.
  apply (@playback_device_open_then_data_proc no_devices stereo 100 7 500 0 512
           (@initial_world no_devices [] [])).
  - discriminate.
  - reflexivity.
  - reflexivity.
  - discriminate.
Defined.

(** Once with a device, once with the NULL of a failed [ma_device_init]. *)
Lemma playback_device_open_then_destroy_witness :
  (exists p w' w'',
     @playback_device_open no_devices stereo 100 7 (@initial_world no_devices [] [])
       = Done p w' /\
     @playback_device_destroy no_devices p w' = Done tt w'' /\
     heap w'' = ∅ /\
     log_callbacks w'' = log_callbacks (@initial_world no_devices [] [])) /\
  (exists p w' w'',
     @playback_device_open no_devices stereo 100 7 (@initial_world no_devices [1] [])
       = Done p w' /\
     @playback_device_destroy no_devices p w' = Done tt w'' /\
     heap w'' = ∅ /\
     log_callbacks w'' = log_callbacks (@initial_world no_devices [1] [])).
Proof.
  split.
  - apply (@playback_device_open_then_destroy no_devices stereo 100 7
             (@initial_world no_devices [] [])).
    discriminate.
  - apply (@playback_device_open_then_destroy no_devices stereo 100 7
             (@initial_world no_devices [1] [])).
    discriminate.
Defined.

(** The native start is scripted to fail (result 3): the call returns 0. *)
Lemma playback_device_start_stop_result_witness :
  (exists w', @playback_device_start no_devices 1 opened_world = Done 1 w') /\
  (exists w', @playback_device_start no_devices 1
                (@set_native no_devices [3] opened_world) = Done 0 w').
Proof.
  split.
  - destruct (proj1 (@playback_device_start_stop_result no_devices opened_world 1
                       opened_wrapper
                       {| dev_pUserData := 1; dev_sampleRate := 48000;
                          dev_playback_channels := 2; dev_internal := [] |}
                       ltac:(discriminate) ltac:(reflexivity) ltac:(reflexivity)))
      as (r & Hrun & _ & Hiff).
    rewrite Hrun. rewrite (proj2 Hiff eq_refl). eauto.
  - destruct (proj1 (@playback_device_start_stop_result no_devices
                       (@set_native no_devices [3] opened_world) 1
                       opened_wrapper
                       {| dev_pUserData := 1; dev_sampleRate := 48000;
                          dev_playback_channels := 2; dev_internal := [] |}
                       ltac:(discriminate) ltac:(reflexivity) ltac:(reflexivity)))
      as (r & Hrun & [Hr|Hr] & Hiff).
    + rewrite Hrun, Hr. eauto.
    + exfalso. apply Hiff in Hr. discriminate.
Defined.

Lemma device_calls_after_destroy_witness :
  (@playback_device_start no_devices NULL opened_world = Done 0 opened_world /\
   @playback_device_stop no_devices NULL opened_world = Done 0 opened_world /\
   @data_proc no_devices NULL 500 0 512 opened_world = Undefined NullDeref) /\
  exists w',
    @playback_device_destroy no_devices 1 opened_world = Done tt w' /\
    @playback_device_start no_devices 1 w' = Undefined DeadAccess /\
    @playback_device_stop no_devices 1 w' = Undefined DeadAccess /\
    @data_proc no_devices 1 500 0 512 w' = Undefined DeadAccess /\
    @playback_device_get_config no_devices 1 w' = Done (config_of 1) w' /\
    @read_config no_devices (config_of 1) w' = None.
Proof.
  apply (@device_calls_after_destroy no_devices opened_world 1 opened_wrapper
           {| dev_pUserData := 1; dev_sampleRate := 48000;
              dev_playback_channels := 2; dev_internal := [] |}
           500 0 512
           ltac:(discriminate) ltac:(reflexivity) ltac:(reflexivity)).
Defined.

Lemma playback_device_open_twice_witness :
  exists w2,
    @playback_device_open no_devices stereo 200 8 opened_world = Done 2 w2 /\
    1 <> 2 /\
    (∅ : gmap Z block) ⊆ heap opened_world /\ heap opened_world ⊆ heap w2 /\
    is_Some (heap opened_world !! 1) /\
    heap w2 !! 1 = heap opened_world !! 1 /\
    is_Some (heap w2 !! 2).
Proof.
  eexists. split; [reflexivity|].
  apply (@playback_device_open_twice no_devices stereo 100 7 stereo 200 8
           (@initial_world no_devices [] []) opened_world _ 1 2).
  - reflexivity.
  - reflexivity.
  - discriminate.
  - discriminate.
Defined.
